(** * osprey: incremental log scanning with a persisted anchor

    A shallow embedding of [main.go]: the anchor record ([getAnchor],
    [setAnchor], [extract]), the incremental scan ([scanFile], [scan]),
    the per-source job ([Execute]) and the worker pool set up by [main].

    Go strings are modelled as [string] (a sequence of bytes), Go's [int]
    as [Z] wrapped to 64 bits, the file system as a finite map from paths
    to file contents, and a run-time panic as an outcome of its own. *)

From Stdlib Require Import ZArith Ascii String List Lia Bool.
From stdpp Require Import gmap strings list fin_maps.

Local Open Scope Z_scope.

(** ** The Go standard library, as far as [main.go] uses it *)

Module GoLib.

Definition LF : ascii := "010"%char.
Definition CR : ascii := "013"%char.
Definition nl : string := String LF "".

(** [strings.Split(s, sep)] for a one-byte separator: the substrings
    between the separators, one more than there are separators. *)
Fixpoint Split (s : string) (sep : ascii) : list string :=
  match s with
  | EmptyString => [EmptyString]
  | String c s' =>
      if Ascii.eqb c sep then EmptyString :: Split s' sep
      else match Split s' sep with
           | [] => [String c EmptyString]
           | t :: ts => String c t :: ts
           end
  end.

(** [strings.IndexByte(s, c) >= 0]. *)
Fixpoint hasByte (c : ascii) (s : string) : bool :=
  match s with
  | EmptyString => false
  | String c' s' => Ascii.eqb c' c || hasByte c s'
  end.

(** [strings.Join(elems, sep)]. *)
Fixpoint Join (elems : list string) (sep : string) : string :=
  match elems with
  | [] => EmptyString
  | [e] => e
  | e :: rest => e +:+ sep +:+ Join rest sep
  end.

(** [strings.Contains(s, substr)]: a case-sensitive substring test. *)
Fixpoint Contains (s substr : string) : bool :=
  String.prefix substr s ||
  match s with
  | EmptyString => false
  | String _ s' => Contains s' substr
  end.

(** [bufio.MaxScanTokenSize]: a [bufio.Scanner] with the default buffer
    gives up on a line that does not fit in 64 KiB. *)
Definition MaxScanTokenSize : Z := 65536.

(** The lines [bufio.ScanLines] cuts the input into: every newline ends
    a line, and what follows the last newline is a line too unless it is
    empty. *)
Fixpoint rawLines (s : string) : list string :=
  match s with
  | EmptyString => []
  | String c s' =>
      if Ascii.eqb c LF then EmptyString :: rawLines s'
      else match rawLines s' with
           | [] => [String c EmptyString]
           | t :: ts => String c t :: ts
           end
  end.

(** [dropCR] of [bufio]: one trailing carriage return is removed. *)
Fixpoint dropCR (data : string) : string :=
  match data with
  | EmptyString => EmptyString
  | String c EmptyString => if Ascii.eqb c CR then EmptyString else data
  | String c rest => String c (dropCR rest)
  end.

Inductive scanErr : Type := ErrTooLong.

(** The tokens successive calls of [Scanner.Scan] deliver, and what
    [Scanner.Err] reports once [Scan] has returned false. *)
Fixpoint tokensOf (ls : list string) : list string * option scanErr :=
  match ls with
  | [] => ([], None)
  | l :: ls' =>
      if MaxScanTokenSize <=? Z.of_nat (String.length l)
      then ([], Some ErrTooLong)
      else let '(ts, e) := tokensOf ls' in (dropCR l :: ts, e)
  end.

Definition scanAll (input : string) : list string * option scanErr :=
  tokensOf (rawLines input).

(** A 64-bit [int]. *)
Definition minInt : Z := - 2 ^ 63.
Definition maxInt : Z := 2 ^ 63 - 1.
Definition maxUint64 : Z := 2 ^ 64 - 1.

Definition wrapInt (z : Z) : Z := (z + 2 ^ 63) mod 2 ^ 64 - 2 ^ 63.

Inductive numErr : Type := ErrSyntax | ErrRange.

Definition digitOf (c : ascii) : option Z :=
  let n := Z.of_N (N_of_ascii c) in
  if (48 <=? n) && (n <=? 57) then Some (n - 48) else None.

(** The digit loop of [strconv.ParseUint(s, 10, 64)]. *)
Fixpoint parseDigits (n : Z) (s : string) : numErr + Z :=
  match s with
  | EmptyString => inr n
  | String c s' =>
      match digitOf c with
      | None => inl ErrSyntax
      | Some d =>
          if maxUint64 / 10 + 1 <=? n then inl ErrRange
          else let n1 := n * 10 + d in
               if maxUint64 <? n1 then inl ErrRange else parseDigits n1 s'
      end
  end.

Definition ParseUint (s : string) : numErr + Z :=
  match s with
  | EmptyString => inl ErrSyntax
  | _ => parseDigits 0 s
  end.

(** [strconv.Atoi(s)], that is [ParseInt(s, 10, 0)]: an optional sign,
    then decimal digits, within the range of [int]. *)
Definition Atoi (s : string) : numErr + Z :=
  match s with
  | EmptyString => inl ErrSyntax
  | String c s' =>
      let neg := Ascii.eqb c "-"%char in
      let body := if neg || Ascii.eqb c "+"%char then s' else s in
      match ParseUint body with
      | inl e => inl e
      | inr un =>
          if negb neg && (2 ^ 63 <=? un) then inl ErrRange
          else if neg && (2 ^ 63 <? un) then inl ErrRange
          else inr (if neg then - un else un)
      end
  end.

Definition digitChar (d : Z) : ascii := ascii_of_N (Z.to_N (48 + d)).

(** The decimal digits of a non-negative number, most significant
    first, put in front of [acc]. *)
Fixpoint utoa_go (fuel : nat) (n : Z) (acc : string) : string :=
  match fuel with
  | O => acc
  | S fuel' =>
      let acc' := String (digitChar (n mod 10)) acc in
      if n <? 10 then acc' else utoa_go fuel' (n / 10) acc'
  end.

Definition utoa (n : Z) : string :=
  utoa_go (S (Z.to_nat (Z.log2 n))) n EmptyString.

(** The verb [%d] of [fmt.Sprintf]. *)
Definition itoa (n : Z) : string :=
  if n <? 0 then String "-"%char (utoa (- n)) else utoa n.

End GoLib.

Import GoLib.

(** ** Outcomes, the world and the calls that reach it *)

(** A Go [error] value, by the call that produced it. *)
Inductive error : Type :=
  | ErrCreate (path : string)
  | ErrOpen (path : string)
  | ErrOpenFile (path : string)
  | ErrWrite (path : string)
  | ErrReadFile (path : string)
  | ErrScanner (e : scanErr)
  | ErrAtoi (e : numErr)
  | ErrIssue (k : nat).

Inductive panic : Type :=
  | SliceBoundsOutOfRange (low : Z) (len : nat)
  | IndexOutOfRange (index : nat) (len : nat).

(** A function either returns or panics; a panic that nobody recovers
    ends the whole process. *)
Inductive res (A : Type) : Type :=
  | Val (a : A)
  | Panicked (p : panic).
Arguments Val {A} a.
Arguments Panicked {A} p.

Record IssueRequest : Type := { Title : string; Body : string }.

Inductive logLine : Type :=
  | LogNewErrors (n : nat)
  | LogError (e : error)
  | LogJobError (e : error).

(** Every call that leaves the program, in program order. *)
Inductive event : Type :=
  | CallStat (path : string)
  | CallCreate (path : string)
  | CallOpen (path : string)
  | CallReadFile (path : string)
  | CallOpenFile (path : string)
  | CallWriteString (path data : string)
  | CallIssuesCreate (owner repo : string) (req : IssueRequest)
  | CallLogPrintf (l : logLine).

Record world : Type := {
  files : gmap string string;
  trace : list event
}.

(** What the surroundings decide during one job: which calls fail, and
    what the clock shows. *)
Record environment : Type := {
  statFails : bool;          (* os.Stat fails, but not with "not exist" *)
  createFails : bool;
  openFails : bool;
  openFileFails : bool;
  writeShort : option nat;   (* WriteString fails after that many bytes *)
  readFileFails : bool;
  issueFails : nat -> bool;  (* the k-th Issues.Create of the job fails *)
  now : nat -> string        (* the formatted time at the k-th line *)
}.

Definition M (A : Type) : Type := world -> res A * world.

Global Instance M_ret : MRet M := fun A a w => (Val a, w).

Global Instance M_bind : MBind M := fun A B k m w =>
  match m w with
  | (Val a, w') => k a w'
  | (Panicked p, w') => (Panicked p, w')
  end.

Definition throw {A} (p : panic) : M A := fun w => (Panicked p, w).

Definition call (e : event) : M unit :=
  fun w => (Val tt, {| files := files w; trace := trace w ++ [e] |}).

Definition readFiles : M (gmap string string) := fun w => (Val (files w), w).

Definition writeFile (path data : string) : M unit :=
  fun w => (Val tt, {| files := <[path := data]> (files w); trace := trace w |}).

(** *** The operating system *)

Section Calls.
Variable env : environment.

(** [os.Stat]: [Some true] stands for an error that [os.IsNotExist]
    recognises, [Some false] for any other error. *)
Definition os_Stat (path : string) : M (option bool) :=
  call (CallStat path);;
  fs ← readFiles;
  mret (if statFails env then Some false
        else match fs !! path with None => Some true | Some _ => None end).

(** [os.Create]: the file is created, or truncated if it exists. *)
Definition os_Create (path : string) : M (option error) :=
  call (CallCreate path);;
  if createFails env then mret (Some (ErrCreate path))
  else writeFile path "";; mret None.

(** [os.Open] and reading all there is through a [bufio.Reader]. *)
Definition os_Open (path : string) : M (error + string) :=
  call (CallOpen path);;
  fs ← readFiles;
  mret (if openFails env then inl (ErrOpen path)
        else match fs !! path with
             | None => inl (ErrOpen path)
             | Some data => inr data
             end).

(** [ioutil.ReadFile]. *)
Definition ioutil_ReadFile (path : string) : M (error + string) :=
  call (CallReadFile path);;
  fs ← readFiles;
  mret (if readFileFails env then inl (ErrReadFile path)
        else match fs !! path with
             | None => inl (ErrReadFile path)
             | Some data => inr data
             end).

(** [os.OpenFile(path, O_RDWR|O_CREATE|O_TRUNC, 0666)]: on success the
    file exists and is empty. *)
Definition os_OpenFile_trunc (path : string) : M (option error) :=
  call (CallOpenFile path);;
  if openFileFails env then mret (Some (ErrOpenFile path))
  else writeFile path "";; mret None.

(** [File.WriteString] on a file that was just truncated: all of [data]
    is written, or only its first bytes when the write fails. *)
Definition File_WriteString (path data : string) : M (option error) :=
  call (CallWriteString path data);;
  match writeShort env with
  | None => writeFile path data;; mret None
  | Some k => writeFile path (String.substring 0 k data);;
              mret (Some (ErrWrite path))
  end.

(** [github.IssuesService.Create], the [k]-th of the job. *)
Definition Issues_Create (k : nat) (owner repo : string) (req : IssueRequest)
  : M (option error) :=
  call (CallIssuesCreate owner repo req);;
  mret (if issueFails env k then Some (ErrIssue k) else None).

Definition log_Printf (l : logLine) : M unit := call (CallLogPrintf l).

End Calls.

(** [bufio.Writer] with its default buffer of 4096 bytes: [WriteString]
    hands full buffers on to the file and keeps the rest, which reaches
    the file only at [Flush]. The result is what was handed on and what
    stays in the buffer. *)
Definition defaultBufSize : nat := 4096.

Definition Writer_WriteString (buf s : string) : string * string :=
  let all := buf +:+ s in
  let t := String.length all in
  if (t <=? defaultBufSize)%nat then (EmptyString, all)
  else let k := (defaultBufSize * ((t - 1) / defaultBufSize))%nat in
       (String.substring 0 k all, String.substring k (t - k) all).

(** ** The program *)

Definition defaultErrorKeyword : string := "error".

(** [service]: the log file and the target repository of one service. *)
Record service : Type := {
  name : string;
  logFileLoc : string;
  repoOwner : string;
  repoName : string
}.

(** [scanner]; the shared GitHub client is part of the surroundings. *)
Record scanner : Type := {
  svc : service;
  iguFilePath : string;
  anchor : Z
}.

Definition withAnchor (s : scanner) (a : Z) : scanner :=
  {| svc := svc s; iguFilePath := iguFilePath s; anchor := a |}.

(** The scanner [createScanners] builds for one entry of the
    configuration; [anchor] keeps its zero value. *)
Definition newScanner (iguDir : string) (sv : service) : scanner :=
  {| svc := sv;
     iguFilePath := iguDir +:+ "/" +:+ name sv +:+ ".igu";
     anchor := 0 |}.

(** [fmt.Sprintf("last:%d\n", newAnchor)]: the text of an anchor record. *)
Definition record (newAnchor : Z) : string :=
  "last:" +:+ itoa newAnchor +:+ nl.

(** [logs[low:]]. *)
Definition sliceFrom {A} (l : list A) (low : Z) : M (list A) :=
  if (low <? 0) || (Z.of_nat (length l) <? low)
  then throw (SliceBoundsOutOfRange low (length l))
  else mret (drop (Z.to_nat low) l).

(** [extract] *)
Definition extract (line : string) : res (Z * option error) :=
  let tks := Split line ":"%char in
  if (length tks =? 0)%nat then Val (0, None)
  else match tks !! 1%nat with
       | None => Panicked (IndexOutOfRange 1 (length tks))
       | Some tk =>
           match Atoi tk with
           | inl e => Val (0, Some (ErrAtoi e))
           | inr a => Val (a, None)
           end
       end.

Section Job.
Variable env : environment.

(** [title] *)
Definition title (k : nat) (serviceName : string) : string :=
  serviceName +:+ "-bug-" +:+ now env k.

(** The loop of [scanFile] over the tokens of the scanner; [k] counts
    the tokens already seen. *)
Fixpoint scanLoop (serviceName : string) (tokens : list string) (k : nat)
    (issues : list IssueRequest) (forward : Z) : list IssueRequest * Z :=
  match tokens with
  | [] => (issues, forward)
  | text :: rest =>
      let issues' :=
        if Contains text defaultErrorKeyword
        then issues ++ [ {| Title := title k serviceName; Body := text |} ]
        else issues in
      scanLoop serviceName rest (S k) issues' (wrapInt (forward + 1))
  end.

(** [scanFile] *)
Definition scanFile (s : scanner) : M (Z * list IssueRequest * option error) :=
  r ← ioutil_ReadFile env (logFileLoc (svc s));
  match r with
  | inl err => mret (anchor s, [], Some err)
  | inr dat =>
      let logs := Split dat LF in
      unread ← sliceFrom logs (anchor s);
      let unreadStr := Join unread nl in
      let '(tokens, serr) := scanAll unreadStr in
      let '(issues, forward) := scanLoop (name (svc s)) tokens 0 [] 0 in
      let newAnchor := wrapInt (anchor s + forward) in
      match serr with
      | Some e => mret (newAnchor, issues, Some (ErrScanner e))
      | None => mret (newAnchor, issues, None)
      end
  end.

(** [getAnchor] *)
Definition getAnchor (s : scanner) : M (scanner * option error) :=
  st ← os_Stat env (iguFilePath s);
  created ←
    (if bool_decide (st = Some true) then
       cerr ← os_Create env (iguFilePath s);
       match cerr with
       | Some err => mret (Some err)
       | None =>
           (* w := bufio.NewWriter(f); w.WriteString; w is never flushed *)
           let '(handedOn, _) := Writer_WriteString "" ("last:0" +:+ nl) in
           (if bool_decide (handedOn = "") then mret tt
            else writeFile (iguFilePath s) handedOn);;
           mret None
       end
     else mret None);
  match created with
  | Some err => mret (s, Some err)
  | None =>
      f ← os_Open env (iguFilePath s);
      match f with
      | inl err => mret (s, Some err)
      | inr data =>
          (* the first call of Scan, then break *)
          let '(tokens, serr) := scanAll data in
          let anchorLine := hd "" tokens in
          match tokens, serr with
          | [], Some e => mret (s, Some (ErrScanner e))
          | _, _ =>
              if bool_decide (anchorLine = "") then mret (s, None)
              else match extract anchorLine with
                   | Panicked p => throw p
                   | Val (_, Some err) => mret (s, Some err)
                   | Val (anc, None) => mret (withAnchor s anc, None)
                   end
          end
      end
  end.

(** [setAnchor]; its mutex is created by the call itself and holds
    nobody else off. *)
Definition setAnchor (s : scanner) (newAnchor : Z) : M (option error) :=
  oerr ← os_OpenFile_trunc env (iguFilePath s);
  match oerr with
  | Some err => mret (Some err)
  | None =>
      File_WriteString env (iguFilePath s) (record newAnchor)
  end.

(** [scan] *)
Definition scan (s : scanner) : M (scanner * list IssueRequest * option error) :=
  '(s1, err) ← getAnchor s;
  match err with
  | Some e => mret (s1, [], Some e)
  | None =>
      '(newAnchor, issues, err) ← scanFile s1;
      match err with
      | Some e => mret (s1, [], Some e)
      | None =>
          if anchor s1 <? newAnchor then
            err ← setAnchor s1 newAnchor;
            match err with
            | Some e => mret (s1, [], Some e)
            | None => mret (s1, issues, None)
            end
          else mret (s1, issues, None)
      end
  end.

(** The loop of [Execute] over the issue requests. *)
Fixpoint submitAll (s : scanner) (k : nat) (issReqs : list IssueRequest) : M unit :=
  match issReqs with
  | [] => mret tt
  | issReq :: rest =>
      err ← Issues_Create env k (repoOwner (svc s)) (repoName (svc s)) issReq;
      match err with
      | Some e => log_Printf (LogError e)
      | None => mret tt
      end;;
      submitAll s (S k) rest
  end.

(** [Execute] *)
Definition Execute (s : scanner) : M (scanner * option error) :=
  '(s1, issReqs, err) ← scan s;
  match err with
  | Some e => mret (s1, Some e)
  | None =>
      let n := length issReqs in
      (if (0 <? n)%nat then
         log_Printf (LogNewErrors n);;
         submitAll s1 0 issReqs
       else mret tt);;
      mret (s1, None)
  end.

(** What a worker of [main] does with one scanner taken off the queue. *)
Definition job (s : scanner) : M unit :=
  '(_, err) ← Execute s;
  match err with
  | Some e => log_Printf (LogJobError e)
  | None => mret tt
  end.

End Job.

(** The jobs of a cycle, one after the other in the order the workers
    take them off the queue; each job meets surroundings of its own. *)
Fixpoint runJobs (jobs : list (environment * scanner)) : M unit :=
  match jobs with
  | [] => mret tt
  | (env, s) :: rest => job env s;; runJobs rest
  end.

(** Surroundings in which no call fails. *)
Definition calm : environment :=
  {| statFails := false; createFails := false; openFails := false;
     openFileFails := false; writeShort := None; readFileFails := false;
     issueFails := fun _ => false; now := fun _ => "" |}.

(** No call on the file system fails. *)
Definition filesWork (env : environment) : Prop :=
  statFails env = false /\ createFails env = false /\ openFails env = false
  /\ openFileFails env = false /\ writeShort env = None
  /\ readFileFails env = false.

(** The anchor a scanner fresh off the queue loads from the files [fs],
    when nothing fails. *)
Definition loadedAnchor (fs : gmap string string) (s : scanner) : option Z :=
  match getAnchor calm (withAnchor s 0) {| files := fs; trace := [] |} with
  | (Val (s', None), _) => Some (anchor s')
  | _ => None
  end.

(** One scan of a sequence: the log as it is then, and the surroundings. *)
Record tick : Type := { tickEnv : environment; tickLog : string }.

Definition setLog (s : scanner) (log : string) (w : world) : world :=
  {| files := <[logFileLoc (svc s) := log]> (files w); trace := trace w |}.

(** The sequence of scans of one source; the result lists the anchor a
    load would see after each scan. A panic ends the process, and with it
    the sequence. *)
Fixpoint runScans (s : scanner) (ticks : list tick) (w : world)
    : list (option Z) :=
  match ticks with
  | [] => []
  | t :: rest =>
      match scan (tickEnv t) s (setLog s (tickLog t) w) with
      | (Val _, w') => loadedAnchor (files w') s :: runScans s rest w'
      | (Panicked _, w') => [loadedAnchor (files w') s]
      end
  end.

(** What [ScanLines] makes of the elements of a split: a last element
    that is empty is no line. *)
Fixpoint consumed (ls : list string) : list string :=
  match ls with
  | [] => []
  | [l] => if bool_decide (l = "") then [] else [l]
  | l :: rest => l :: consumed rest
  end.

Definition marked (text : string) : bool := Contains text defaultErrorKeyword.

(** A line the scanner's buffer holds. *)
Definition short (l : string) : Prop :=
  Z.of_nat (String.length l) < MaxScanTokenSize.

(** The world after further calls [evs], with the files [fs]. *)
Definition after (w : world) (fs : gmap string string) (evs : list event) : world :=
  {| files := fs; trace := trace w ++ evs |}.

(** The issue requests [scanLoop] makes of tokens, the first of which is
    the [k]-th. *)
Fixpoint issuesOf (env : environment) (serviceName : string) (k : nat)
    (tokens : list string) : list IssueRequest :=
  match tokens with
  | [] => []
  | text :: rest =>
      (if marked text
       then [ {| Title := title env k serviceName; Body := text |} ]
       else []) ++ issuesOf env serviceName (S k) rest
  end.

(** The part of the trace each step of a job leaves: 0 for the load of
    the anchor, 1 for the scan, 2 for the store, 3 for the submission. *)
Definition phase (e : event) : nat :=
  match e with
  | CallStat _ | CallCreate _ | CallOpen _ => 0
  | CallReadFile _ => 1
  | CallOpenFile _ | CallWriteString _ _ => 2
  | CallIssuesCreate _ _ _ | CallLogPrintf _ => 3
  end.

(** The store is due: load and scan succeed, and the new anchor is
    greater than the loaded one. *)
Definition storeDue (env : environment) (s : scanner) (w : world) : Prop :=
  exists s1 w1 n issues w2,
    getAnchor env s w = (Val (s1, None), w1)
    /\ scanFile env s1 w1 = (Val (n, issues, None), w2)
    /\ anchor s1 < n.

Definition isStore (e : event) : bool :=
  match e with CallOpenFile _ | CallWriteString _ _ => true | _ => false end.

Definition isSubmit (e : event) : bool :=
  match e with CallIssuesCreate _ _ _ => true | _ => false end.

(** The text of a log with these lines, each ended by a newline. *)
Definition logText (ls : list string) : string :=
  match ls with [] => "" | _ => Join ls nl +:+ nl end.

(** Surroundings in which the write of the record stops after [k] bytes
    and nothing else fails; with 0 bytes this is also how the files are
    left when the process stops between the truncation and the write. *)
Definition cutAt (k : nat) : environment :=
  {| statFails := false; createFails := false; openFails := false;
     openFileFails := false; writeShort := Some k; readFileFails := false;
     issueFails := fun _ => false; now := fun _ => "" |}.

(** The anchors seen after each scan are there and never fall. *)
Fixpoint rising (a : Z) (seen : list (option Z)) : Prop :=
  match seen with
  | [] => True
  | Some b :: rest => a <= b /\ rising b rest
  | None :: _ => False
  end.

(** ** The scan as the specification words it *)

Module Specified.

(** The complete lines of a log: the elements of the split but the
    last, which no newline ends. *)
Definition completeLines (dat : string) : list string :=
  removelast (Split dat LF).

(** Skip the lines before the anchor; every complete line left counts,
    and those with the marker are findings. *)
Definition scanResult (dat : string) (a : Z) : Z * list string :=
  let rest := drop (Z.to_nat a) (completeLines dat) in
  (a + Z.of_nat (length rest), filter (fun l => marked l = true) rest).

(** Completeness, as specified: with the anchor within the complete
    lines, a scan returns that result. *)
Definition complete (env : environment) (s : scanner) (w : world) : Prop :=
  forall dat, files w !! logFileLoc (svc s) = Some dat ->
    0 <= anchor s <= Z.of_nat (length (completeLines dat)) ->
    exists issues w',
      scanFile env s w = (Val ((scanResult dat (anchor s)).1, issues, None), w')
      /\ map Body issues = (scanResult dat (anchor s)).2.

(** Crash atomicity: whatever part of the write has reached the record
    when the store stops, a load then sees the old anchor or the new. *)
Definition crashAtomic (s : scanner) (w : world) (new : Z) : Prop :=
  forall k old, loadedAnchor (files w) s = Some old ->
    let w' := (setAnchor (cutAt k) s new w).2 in
    loadedAnchor (files w') s = Some old
    \/ loadedAnchor (files w') s = Some new.

(** A cycle that fails leaves the persisted anchor as it was. *)
Definition keptOnFailure (env : environment) (s : scanner) (w : world) : Prop :=
  forall s1 e w', Execute env s w = (Val (s1, Some e), w') ->
    loadedAnchor (files w') s = loadedAnchor (files w) s.

(** Monotonicity: over any sequence of scans the anchor never falls. *)
Definition monotone (s : scanner) (ticks : list tick) (w : world) : Prop :=
  forall a, loadedAnchor (files w) s = Some a -> rising a (runScans s ticks w).

(** The scenario: three lines without the marker leave the anchor at 0;
    two more, one of them the error, take it from 0 to 5 with that one
    finding. *)
Definition scenario (env1 env2 : environment) (s : scanner) (w : world)
    (l1 l2 l3 l4 l5 : string) : Prop :=
  exists s1 w1 s2 issues w2,
    scan env1 s (setLog s (logText [l1; l2; l3]) w) = (Val (s1, [], None), w1)
    /\ loadedAnchor (files w1) s = Some 0
    /\ scan env2 s (setLog s (logText [l1; l2; l3; l4; l5]) w1)
       = (Val (s2, issues, None), w2)
    /\ anchor s2 = 0
    /\ loadedAnchor (files w2) s = Some 5
    /\ map Body issues = ["error occurred"].

(** Submissions come before the store: no call of the issue tracker
    follows a call that writes the anchor record. *)
Definition submitBeforeStore (evs : list event) : Prop :=
  forall i j e e', evs !! i = Some e -> evs !! j = Some e' ->
    isStore e = true -> isSubmit e' = true -> (j < i)%nat.

End Specified.

(** ** A service to try things on *)

Module Apple.

Definition log : string := "/tmp/log/apple.log".

Definition apple : scanner :=
  newScanner "/tmp/igu"
    {| name := "apple"; logFileLoc := log;
       repoOwner := "owner"; repoName := "osprey" |}.

Definition igu : string := "/tmp/igu/apple.igu".

Definition orange : scanner :=
  newScanner "/tmp/igu"
    {| name := "orange"; logFileLoc := "/tmp/log/orange.log";
       repoOwner := "owner"; repoName := "osprey" |}.

(** A world with the log only, and one with the anchor record too. *)
Definition fresh (dat : string) : world :=
  {| files := {[ log := dat ]}; trace := [] |}.

Definition known (record dat : string) : world :=
  {| files := <[ igu := record ]> {[ log := dat ]}; trace := [] |}.

End Apple.

(** ** The worker pool of [main] *)

Module Pool.

(** A worker waits at [<-queue] or runs [Execute] for a scanner. *)
Inductive worker : Type := Idle | Busy (s : scanner).

(** Where [main] is: at [range t.C], in the loop that starts workers,
    or in the loop that pushes scanners. *)
Inductive mainAt : Type :=
  | AwaitTick
  | StartWorkers (i : Z)
  | PushScanners (rest : list scanner).

Record pool : Type := {
  workers : list worker;
  queue : list scanner;
  at_ : mainAt
}.

Definition isBusy (w : worker) : bool :=
  match w with Busy _ => true | Idle => false end.

(** The number of sources being scanned. *)
Definition active (p : pool) : nat := length (filter (fun w => isBusy w = true) (workers p)).

Section Main.
Variable scanners : list scanner.
Variable maxWorkers : Z.

Definition workerN : Z :=
  let n := Z.of_nat (length scanners) in
  if maxWorkers <? n then maxWorkers else n.

(** [make(chan scanner, workerN)] panics when [workerN] is negative. *)
Definition start : option pool :=
  if workerN <? 0 then None
  else Some {| workers := []; queue := []; at_ := AwaitTick |}.

Inductive step : pool -> pool -> Prop :=
  | step_tick ws q :
      step {| workers := ws; queue := q; at_ := AwaitTick |}
           {| workers := ws; queue := q; at_ := StartWorkers 1 |}
  | step_go ws q i :
      i <= workerN ->
      step {| workers := ws; queue := q; at_ := StartWorkers i |}
           {| workers := ws ++ [Idle]; queue := q; at_ := StartWorkers (i + 1) |}
  | step_started ws q i :
      workerN < i ->
      step {| workers := ws; queue := q; at_ := StartWorkers i |}
           {| workers := ws; queue := q; at_ := PushScanners scanners |}
  | step_push ws q s rest :
      Z.of_nat (length q) < workerN ->
      step {| workers := ws; queue := q; at_ := PushScanners (s :: rest) |}
           {| workers := ws; queue := q ++ [s]; at_ := PushScanners rest |}
  | step_pushed ws q :
      step {| workers := ws; queue := q; at_ := PushScanners [] |}
           {| workers := ws; queue := q; at_ := AwaitTick |}
  | step_take ws1 ws2 s q m :
      step {| workers := ws1 ++ Idle :: ws2; queue := s :: q; at_ := m |}
           {| workers := ws1 ++ Busy s :: ws2; queue := q; at_ := m |}
  | step_done ws1 ws2 s q m :
      step {| workers := ws1 ++ Busy s :: ws2; queue := q; at_ := m |}
           {| workers := ws1 ++ Idle :: ws2; queue := q; at_ := m |}.

Definition reachable (p : pool) : Prop :=
  exists p0, start = Some p0 /\ rtc step p0 p.

End Main.

End Pool.

(** ** The configuration and [createScanners] *)

(** A value of the configuration as [viper] hands it out: a string, or
    something else. *)
Inductive cfgField : Type :=
  | FieldString (s : string)
  | FieldOther.

(** The entry of one service under [services]: a map from keys to
    values, or something that is no map. *)
Inductive cfgEntry : Type :=
  | EntryMap (m : gmap string cfgField)
  | EntryOther.

(** The panics of the type assertions in [createScanners]. *)
Inductive castPanic : Type :=
  | NotAMap (service : string)
  | NotAString (service key : string).

(** [cfg.(map[string]interface{})[key].(string)] *)
Definition fieldString (service : string) (cfg : cfgEntry) (key : string)
    : castPanic + string :=
  match cfg with
  | EntryOther => inl (NotAMap service)
  | EntryMap m =>
      match m !! key with
      | Some (FieldString s) => inr s
      | _ => inl (NotAString service key)
      end
  end.

(** The loop of [createScanners] over the services, in the order the
    map hands them out. *)
Fixpoint createScanners_go (iguFilePath : string)
    (services : list (string * cfgEntry)) (scanners : list scanner)
    : castPanic + list scanner :=
  match services with
  | [] => inr scanners
  | (name, cfg) :: rest =>
      match fieldString name cfg "location" with
      | inl p => inl p
      | inr loc =>
          match fieldString name cfg "repo_owner" with
          | inl p => inl p
          | inr repoOwner =>
              match fieldString name cfg "repo_name" with
              | inl p => inl p
              | inr repoName =>
                  createScanners_go iguFilePath rest
                    (scanners ++
                     [newScanner iguFilePath
                        {| name := name; logFileLoc := loc;
                           repoOwner := repoOwner; repoName := repoName |}])
              end
          end
      end
  end.

(** [createScanners] *)
Definition createScanners (iguFilePath : string)
    (services : list (string * cfgEntry)) : castPanic + list scanner :=
  createScanners_go iguFilePath services [].

(** An entry [createScanners] can use: a map with strings under the
    three keys it reads. *)
Definition usable (cfg : cfgEntry) : Prop :=
  exists m loc owner repo,
    cfg = EntryMap m
    /\ m !! "location" = Some (FieldString loc)
    /\ m !! "repo_owner" = Some (FieldString owner)
    /\ m !! "repo_name" = Some (FieldString repo).

(** ** The pool, with its ticks counted *)

Module Ticks.

Section Counted.
Variable scanners : list scanner.
Variable maxWorkers : Z.

(** The states [main] and its workers reach with [k] ticks taken off
    the ticker. *)
Inductive reachedIn : nat -> Pool.pool -> Prop :=
  | reached_start p0 :
      Pool.start scanners maxWorkers = Some p0 -> reachedIn 0 p0
  | reached_tick k ws q :
      reachedIn k {| Pool.workers := ws; Pool.queue := q;
                     Pool.at_ := Pool.AwaitTick |} ->
      reachedIn (S k) {| Pool.workers := ws; Pool.queue := q;
                         Pool.at_ := Pool.StartWorkers 1 |}
  | reached_step k p p' :
      reachedIn k p -> Pool.step scanners maxWorkers p p' ->
      Pool.at_ p' <> Pool.StartWorkers 1 \/ Pool.at_ p <> Pool.AwaitTick ->
      reachedIn k p'.

End Counted.

End Ticks.

(** A line of [2 ^ k] bytes [c]. *)
Fixpoint doubled (k : nat) (c : ascii) : string :=
  match k with
  | O => String c EmptyString
  | S k' => doubled k' c +:+ doubled k' c
  end.

Arguments doubled : simpl never.

(** ** Tactics *)

(** Running the monad by hand. *)
Ltac run :=
  unfold mbind, mret, M_bind, M_ret, call, readFiles, writeFile, throw, after;
  simpl.

(** Two equations for one scrutinee are made one. *)
Ltac clash :=
  repeat match goal with
         | H1 : ?x = _, H2 : ?x = _ |- _ => rewrite H1 in H2; simplify_eq/=
         end;
  try done; try congruence.

(** * Facts about the library functions *)

Example Split_trailing_newline :
  Split ("a" +:+ nl +:+ "b" +:+ nl) LF = ["a"; "b"; ""].
Proof. reflexivity. Qed.

Example scanAll_lines :
  scanAll ("a" +:+ nl +:+ nl +:+ "b" +:+ String CR nl +:+ "c")
  = (["a"; ""; "b"; "c"], None).
Proof. reflexivity. Qed.

Example Atoi_cases :
  Atoi "-12" = inr (-12)
  /\ Atoi "9223372036854775808" = inl ErrRange
  /\ Atoi "+" = inl ErrSyntax
  /\ Atoi "12a" = inl ErrSyntax
  /\ Atoi (itoa minInt) = inr minInt.
Proof. vm_compute. repeat split. Qed.

Example itoa_cases : itoa 0 = "0" /\ itoa 1203 = "1203" /\ itoa (-7) = "-7".
Proof. vm_compute. repeat split. Qed.

Example extract_cases :
  extract "last:42" = Val (42, None)
  /\ extract "last:x" = Val (0, Some (ErrAtoi ErrSyntax))
  /\ extract "garbage" = Panicked (IndexOutOfRange 1 1).
Proof. vm_compute. repeat split. Qed.

Section StringFacts.

Lemma app_cons (c : ascii) (s t : string) :
  String c s +:+ t = String c (s +:+ t).
Proof. reflexivity. Qed.

Lemma app_empty_l (s : string) : "" +:+ s = s.
Proof. reflexivity. Qed.

Lemma app_empty_r (s : string) : s +:+ "" = s.
Proof. induction s as [|c s IH]; [done|]. by rewrite app_cons, IH. Qed.

Lemma app_assoc' (s t u : string) : (s +:+ t) +:+ u = s +:+ t +:+ u.
Proof. induction s as [|c s IH]; [done|]. by rewrite !app_cons, IH. Qed.

Lemma length_app' (s t : string) :
  String.length (s +:+ t) = (String.length s + String.length t)%nat.
Proof. induction s as [|c s IH]; [done|]. rewrite app_cons. simpl. by rewrite IH. Qed.

Lemma hasByte_app c (s t : string) :
  hasByte c (s +:+ t) = hasByte c s || hasByte c t.
Proof.
  induction s as [|c' s IH]; [done|].
  rewrite app_cons. simpl. rewrite IH. by rewrite orb_assoc.
Qed.

Lemma substring_all (s : string) : String.substring 0 (String.length s) s = s.
Proof. induction s as [|c s IH]; [done|]. simpl. by rewrite IH. Qed.

End StringFacts.

Section SplitFacts.
Variable sep : ascii.

Lemma Split_not_nil (s : string) : Split s sep <> [].
Proof.
  destruct s as [|c s]; simpl; [done|].
  destruct (Ascii.eqb c sep); [done|]. by destruct (Split s sep).
Qed.

Lemma Split_cons_other c (s : string) :
  Ascii.eqb c sep = false ->
  exists t ts, Split s sep = t :: ts /\ Split (String c s) sep = String c t :: ts.
Proof.
  intros Hc. simpl. rewrite Hc.
  destruct (Split s sep) as [|t ts] eqn:E; [by apply Split_not_nil in E|].
  by exists t, ts.
Qed.

(** No element of a split holds the separator. *)
Lemma Split_hasByte (s : string) :
  Forall (fun l => hasByte sep l = false) (Split s sep).
Proof.
  induction s as [|c s IH]; simpl.
  - by constructor.
  - destruct (Ascii.eqb c sep) eqn:Hc.
    + by constructor.
    + destruct (Split s sep) as [|t ts]; [constructor; [simpl; by rewrite Hc|done]|].
      inversion IH; subst. constructor; [|done]. simpl. by rewrite Hc.
Qed.

Lemma Split_whole (s : string) : hasByte sep s = false -> Split s sep = [s].
Proof.
  induction s as [|c s IH]; [done|]. simpl.
  intros [Hc Hs]%orb_false_elim. rewrite Hc, (IH Hs). done.
Qed.

Lemma Split_app (l rest : string) :
  hasByte sep l = false ->
  Split (l +:+ String sep rest) sep = l :: Split rest sep.
Proof.
  induction l as [|c l IH]; intros Hl.
  - rewrite app_empty_l. simpl. by rewrite Ascii.eqb_refl.
  - simpl in Hl. apply orb_false_elim in Hl as [Hc Hl].
    rewrite app_cons. simpl. rewrite Hc, (IH Hl). done.
Qed.

(** Splitting what was joined gives the elements back. *)
Lemma Split_Join (ls : list string) :
  ls <> [] -> Forall (fun l => hasByte sep l = false) ls ->
  Split (Join ls (String sep "")) sep = ls.
Proof.
  induction ls as [|l ls IH]; [done|]. intros _ Hall.
  inversion Hall as [|? ? Hl Hls]; subst.
  destruct ls as [|l' ls].
  - simpl. by apply Split_whole.
  - change (Join (l :: l' :: ls) (String sep ""))
      with (l +:+ String sep "" +:+ Join (l' :: ls) (String sep "")).
    rewrite app_cons, app_empty_l, (Split_app _ _ Hl), IH; done.
Qed.

End SplitFacts.

Section ScannerFacts.

Lemma consumed_cons (l : string) (ls : list string) :
  ls <> [] -> consumed (l :: ls) = l :: consumed ls.
Proof. by destruct ls. Qed.

(** The scanner's lines are the split's elements, but for an empty
    last one. *)
Lemma rawLines_Split (s : string) : rawLines s = consumed (Split s LF).
Proof.
  induction s as [|c s IH]; [done|]. simpl.
  destruct (Ascii.eqb c LF) eqn:Hc.
  - rewrite consumed_cons by apply Split_not_nil. by rewrite IH.
  - rewrite IH. destruct (Split s LF) as [|t [|t' ts]] eqn:E.
    + by apply Split_not_nil in E.
    + simpl. by case_bool_decide; subst.
    + done.
Qed.

Lemma rawLines_Join (ls : list string) :
  Forall (fun l => hasByte LF l = false) ls ->
  rawLines (Join ls nl) = consumed ls.
Proof.
  intros Hall. rewrite rawLines_Split. destruct ls as [|l ls]; [done|].
  unfold nl. by rewrite Split_Join.
Qed.

Lemma tokensOf_short (ls : list string) :
  Forall short ls -> tokensOf ls = (map dropCR ls, None).
Proof.
  induction 1 as [|l ls Hl _ IH]; [done|]. simpl.
  destruct (Z.leb_spec MaxScanTokenSize (Z.of_nat (String.length l))) as [Hle|_].
  - unfold short in Hl. lia.
  - by rewrite IH.
Qed.

Lemma consumed_Forall (P : string -> Prop) (ls : list string) :
  Forall P ls -> Forall P (consumed ls).
Proof.
  induction 1 as [|l ls Hl Hls IH]; [done|].
  destruct ls as [|l' ls]; simpl.
  - case_bool_decide; by constructor.
  - by constructor.
Qed.

Lemma consumed_length (ls : list string) :
  (length (consumed ls) <= length ls)%nat.
Proof.
  induction ls as [|l [|l' ls] IH]; simpl in *; [lia| |lia].
  case_bool_decide; simpl; lia.
Qed.

End ScannerFacts.

(** * Facts about the program *)

Section IntFacts.

Lemma wrapInt_id (z : Z) : minInt <= z <= maxInt -> wrapInt z = z.
Proof.
  unfold wrapInt, minInt, maxInt. intros H.
  rewrite Z.mod_small; lia.
Qed.

Lemma wrapInt_range (z : Z) : minInt <= wrapInt z <= maxInt.
Proof.
  unfold wrapInt, minInt, maxInt.
  pose proof (Z.mod_pos_bound (z + 2 ^ 63) (2 ^ 64) ltac:(lia)). lia.
Qed.

End IntFacts.

Section ScanFileFacts.
Variable env : environment.

Lemma scanLoop_issuesOf serviceName tokens : forall k issues forward,
  minInt <= forward ->
  forward + Z.of_nat (length tokens) <= maxInt ->
  scanLoop env serviceName tokens k issues forward
  = (issues ++ issuesOf env serviceName k tokens,
     forward + Z.of_nat (length tokens)).
Proof.
  induction tokens as [|text rest IH]; intros k issues forward Hlo Hhi; simpl.
  - by rewrite app_nil_r, Z.add_0_r.
  - simpl in Hhi. rewrite wrapInt_id by (unfold minInt, maxInt in *; lia).
    rewrite IH by (unfold minInt, maxInt in *; lia).
    unfold marked. f_equal.
    + destruct (Contains text defaultErrorKeyword); [by rewrite <- app_assoc|done].
    + lia.
Qed.

(** What [scanFile] returns when the log can be read and the anchor
    lies within its lines. *)
Lemma scanFile_lines (s : scanner) (w : world) (dat : string) :
  readFileFails env = false ->
  files w !! logFileLoc (svc s) = Some dat ->
  0 <= anchor s <= Z.of_nat (length (Split dat LF)) ->
  Z.of_nat (length (Split dat LF)) <= maxInt ->
  Forall short (drop (Z.to_nat (anchor s)) (Split dat LF)) ->
  let lines := consumed (drop (Z.to_nat (anchor s)) (Split dat LF)) in
  scanFile env s w
  = (Val (anchor s + Z.of_nat (length lines),
          issuesOf env (name (svc s)) 0 (map dropCR lines), None),
     after w (files w) [CallReadFile (logFileLoc (svc s))]).
Proof.
  intros Hread Hdat Ha Hlen Hshort lines.
  unfold scanFile, ioutil_ReadFile, sliceFrom. run.
  rewrite Hread, Hdat.
  destruct (Z.ltb_spec (anchor s) 0) as [?|_]; [lia|].
  destruct (Z.ltb_spec (Z.of_nat (length (Split dat LF))) (anchor s)) as [?|_]; [lia|].
  simpl. unfold scanAll.
  rewrite rawLines_Join
    by (apply Forall_drop, Split_hasByte).
  fold lines.
  rewrite tokensOf_short by (by apply consumed_Forall).
  pose proof (consumed_length (drop (Z.to_nat (anchor s)) (Split dat LF))) as Hc.
  fold lines in Hc. rewrite length_drop in Hc.
  rewrite scanLoop_issuesOf; rewrite ?length_map;
    try (unfold minInt, maxInt in *; lia).
  simpl. rewrite wrapInt_id by (unfold minInt, maxInt in *; lia).
  done.
Qed.

End ScanFileFacts.

Section Findings.
Variable env : environment.

Lemma issuesOf_Body serviceName tokens : forall k,
  map Body (issuesOf env serviceName k tokens)
  = filter (fun l => marked l = true) tokens.
Proof.
  induction tokens as [|text rest IH]; intros k; [done|]. simpl.
  rewrite map_app, IH, filter_cons.
  case_decide as Hm.
  - by rewrite Hm.
  - by destruct (marked text).
Qed.

End Findings.

(** C1: when the log splits into fewer elements than the anchor says,
    [scanFile] does not return: the slice [logs[s.anchor:]] is out of
    range and the call panics. *)
Theorem scanFile_shrunk_log_panics (env : environment) (s : scanner)
    (w : world) (dat : string) :
  readFileFails env = false ->
  files w !! logFileLoc (svc s) = Some dat ->
  Z.of_nat (length (Split dat LF)) < anchor s ->
  scanFile env s w
  = (Panicked (SliceBoundsOutOfRange (anchor s) (length (Split dat LF))),
     after w (files w) [CallReadFile (logFileLoc (svc s))]).
Proof.
  intros Hread Hdat Hlt. unfold scanFile, ioutil_ReadFile, sliceFrom. run.
  rewrite Hread, Hdat.
  destruct (Z.ltb_spec (Z.of_nat (length (Split dat LF))) (anchor s)) as [_|?]; [|lia].
  by rewrite orb_true_r.
Qed.

Lemma scanFile_shrunk_log_panics_witness :
  scanFile calm (withAnchor Apple.apple 5) (Apple.fresh (logText ["a"]))
  = (Panicked (SliceBoundsOutOfRange 5 2),
     after (Apple.fresh (logText ["a"])) {[ Apple.log := logText ["a"] ]}
       [CallReadFile Apple.log]).
Proof.
  apply (scanFile_shrunk_log_panics calm (withAnchor Apple.apple 5)
           (Apple.fresh (logText ["a"])) (logText ["a"])).
  - reflexivity.
  - reflexivity.
  - vm_compute. reflexivity.
Defined.

(** The panic is not recovered: the job of the worker ends with it. *)
Lemma job_shrunk_log_panics :
  (job calm Apple.apple (Apple.known (logText ["last:5"]) (logText ["a"]))).1
  = Panicked (SliceBoundsOutOfRange 5 2).
Proof. vm_compute. reflexivity. Qed.

(** C2, as specified, fails: the last line of a log that no newline ends
    is scanned and counted like the others. *)
Lemma unterminated_line_is_scanned :
  ~ Specified.complete calm Apple.apple (Apple.fresh ("ok" +:+ nl +:+ "error x")).
Proof.
  intros H.
  destruct (H ("ok" +:+ nl +:+ "error x")) as (issues & w' & Hrun & _).
  - reflexivity.
  - vm_compute. split; discriminate.
  - vm_compute in Hrun. discriminate Hrun.
Qed.

(** C2, amended: with the anchor within the elements of the split and no
    line too long for the scanner, one scan takes every element from the
    anchor on as a line, but for an empty last one; its findings are the
    lines with the marker, without a trailing carriage return, in the
    order of the file, and the new anchor counts all those lines. *)
Theorem scanFile_findings (env : environment) (s : scanner) (w : world)
    (dat : string) :
  readFileFails env = false ->
  files w !! logFileLoc (svc s) = Some dat ->
  0 <= anchor s <= Z.of_nat (length (Split dat LF)) ->
  Z.of_nat (length (Split dat LF)) <= maxInt ->
  Forall short (drop (Z.to_nat (anchor s)) (Split dat LF)) ->
  exists issues w',
    scanFile env s w
    = (Val (anchor s
            + Z.of_nat (length (consumed (drop (Z.to_nat (anchor s)) (Split dat LF)))),
            issues, None), w')
    /\ map Body issues
       = filter (fun l => marked l = true)
           (map dropCR (consumed (drop (Z.to_nat (anchor s)) (Split dat LF)))).
Proof.
  intros Hread Hdat Ha Hlen Hshort.
  eexists _, _. split.
  - by apply scanFile_lines.
  - apply issuesOf_Body.
Qed.

Lemma scanFile_findings_witness :
  exists issues w',
    scanFile calm (withAnchor Apple.apple 1)
      (Apple.fresh ("ok" +:+ nl +:+ "an error" +:+ nl +:+ "error x"))
    = (Val (3, issues, None), w')
    /\ map Body issues = ["an error"; "error x"].
Proof.
  apply (scanFile_findings calm (withAnchor Apple.apple 1)
           (Apple.fresh ("ok" +:+ nl +:+ "an error" +:+ nl +:+ "error x"))
           ("ok" +:+ nl +:+ "an error" +:+ nl +:+ "error x")).
  - reflexivity.
  - reflexivity.
  - vm_compute. split; discriminate.
  - vm_compute. discriminate.
  - vm_compute. repeat constructor.
Defined.

(** * The anchor record: what is written is what is read *)

Section Decimal.

Lemma digitOf_digitChar (d : Z) : 0 <= d <= 9 -> digitOf (digitChar d) = Some d.
Proof.
  intros H.
  assert (d = 0 \/ d = 1 \/ d = 2 \/ d = 3 \/ d = 4 \/ d = 5 \/ d = 6
          \/ d = 7 \/ d = 8 \/ d = 9) as Hd by lia.
  repeat (destruct Hd as [->|Hd]; [reflexivity|]). by subst.
Qed.

Lemma digitChar_other (c : ascii) (d : Z) :
  digitOf c = None -> 0 <= d <= 9 -> Ascii.eqb (digitChar d) c = false.
Proof.
  intros Hc Hd. apply Ascii.eqb_neq. intros <-.
  by rewrite digitOf_digitChar in Hc.
Qed.

(** A byte that is no digit does not come into the digits. *)
Lemma utoa_go_hasByte (c : ascii) : forall fuel n acc,
  digitOf c = None -> 0 <= n -> hasByte c acc = false ->
  hasByte c (utoa_go fuel n acc) = false.
Proof.
  induction fuel as [|fuel IH]; intros n acc Hc Hn Hacc; [done|]. simpl.
  assert (hasByte c (String (digitChar (n mod 10)) acc) = false) as Hacc'.
  { simpl. rewrite digitChar_other, Hacc; [done..|].
    pose proof (Z.mod_pos_bound n 10). lia. }
  destruct (n <? 10); [done|].
  apply IH; [done| |done]. apply Z.div_pos; lia.
Qed.

Lemma utoa_go_length : forall fuel n acc,
  (String.length (utoa_go fuel n acc) <= fuel + String.length acc)%nat.
Proof.
  induction fuel as [|fuel IH]; intros n acc; simpl; [lia|].
  destruct (n <? 10); simpl; [lia|].
  etrans; [apply IH|]. simpl. lia.
Qed.

Lemma utoa_go_not_empty : forall fuel n acc,
  acc <> "" \/ fuel <> O -> utoa_go fuel n acc <> "".
Proof.
  induction fuel as [|fuel IH]; intros n acc H; simpl.
  - by destruct H.
  - destruct (n <? 10); [done|]. apply IH. by left.
Qed.

(** Reading the digits of [n] leaves the reader at [n]. *)
Lemma parseDigits_utoa_go : forall fuel n acc,
  0 <= n < 10 ^ Z.of_nat fuel -> n <= maxUint64 ->
  parseDigits 0 (utoa_go fuel n acc) = parseDigits n acc.
Proof.
  induction fuel as [|fuel IH]; intros n acc Hn Hmax.
  - simpl in Hn. assert (n = 0) as -> by lia. done.
  - simpl utoa_go. pose proof (Z.mod_pos_bound n 10 ltac:(lia)) as Hm.
    destruct (Z.ltb_spec n 10) as [Hlt|Hge].
    + simpl. rewrite Z.mod_small by lia.
      rewrite digitOf_digitChar by lia. simpl.
      replace (0 * 10 + n) with n by lia.
      destruct (Z.ltb_spec maxUint64 n); [lia|done].
    + rewrite IH.
      * simpl. rewrite digitOf_digitChar by lia.
        pose proof (Z.div_mod n 10 ltac:(lia)) as Hdm.
        assert (n / 10 <= maxUint64 / 10) as Hq
          by (apply Z.div_le_mono; lia).
        destruct (Z.leb_spec (maxUint64 / 10 + 1) (n / 10)); [lia|].
        replace (n / 10 * 10 + n mod 10) with n by lia.
        destruct (Z.ltb_spec maxUint64 n); [lia|done].
      * rewrite Nat2Z.inj_succ, Z.pow_succ_r in Hn by lia.
        split; [apply Z.div_pos; lia|].
        apply Z.div_lt_upper_bound; lia.
      * etrans; [|exact Hmax]. apply Z.div_le_upper_bound; lia.
Qed.

Lemma utoa_fuel (n : Z) :
  0 <= n -> n < 10 ^ Z.of_nat (S (Z.to_nat (Z.log2 n))).
Proof.
  intros Hn. pose proof (Z.log2_nonneg n) as Hl.
  rewrite Nat2Z.inj_succ, Z2Nat.id by done.
  destruct (Z.eq_dec n 0) as [->|Hne]; [done|].
  destruct (Z.log2_spec n ltac:(lia)) as [_ Hub].
  eapply Z.lt_le_trans; [exact Hub|].
  apply Z.pow_le_mono_l. lia.
Qed.

Lemma ParseUint_utoa (n : Z) : 0 <= n <= maxUint64 -> ParseUint (utoa n) = inr n.
Proof.
  intros [Hn Hmax]. unfold ParseUint, utoa.
  destruct (utoa_go _ n "") as [|c s] eqn:E.
  - apply utoa_go_not_empty in E; [done|]. by right.
  - rewrite <- E, parseDigits_utoa_go; [done| |done].
    split; [done|]. by apply utoa_fuel.
Qed.

Lemma utoa_hasByte (c : ascii) (n : Z) :
  digitOf c = None -> 0 <= n -> hasByte c (utoa n) = false.
Proof. intros. by apply utoa_go_hasByte. Qed.

(** [Atoi] reads back what [%d] prints. *)
Lemma Atoi_itoa (n : Z) : minInt <= n <= maxInt -> Atoi (itoa n) = inr n.
Proof.
  unfold minInt, maxInt. intros Hn. unfold itoa.
  destruct (Z.ltb_spec n 0) as [Hneg|Hpos].
  - unfold Atoi. simpl.
    rewrite ParseUint_utoa by (unfold maxUint64; lia).
    destruct (Z.ltb_spec (2 ^ 63) (- n)); [lia|]. f_equal. lia.
  - pose proof (utoa_hasByte "-"%char n eq_refl Hpos) as Hm.
    pose proof (utoa_hasByte "+"%char n eq_refl Hpos) as Hp.
    pose proof (ParseUint_utoa n ltac:(unfold maxUint64; lia)) as Hparse.
    destruct (utoa n) as [|c s] eqn:E; [done|].
    unfold Atoi. simpl in Hm, Hp.
    apply orb_false_elim in Hm as [-> _], Hp as [-> _].
    cbn [orb negb andb]. rewrite Hparse.
    destruct (Z.leb_spec (2 ^ 63) n); [lia|done].
Qed.

Lemma itoa_hasByte (c : ascii) (n : Z) :
  digitOf c = None -> Ascii.eqb "-"%char c = false -> hasByte c (itoa n) = false.
Proof.
  intros Hc Hm. unfold itoa. destruct (Z.ltb_spec n 0).
  - cbn [hasByte]. rewrite Hm. apply utoa_hasByte; [done|lia].
  - by apply utoa_hasByte.
Qed.

Lemma itoa_length (n : Z) :
  minInt <= n <= maxInt -> (String.length (itoa n) <= 65)%nat.
Proof.
  unfold minInt, maxInt. intros Hn.
  assert (forall m, 0 <= m <= 2 ^ 63 -> (String.length (utoa m) <= 64)%nat) as Hu.
  { intros m Hm. unfold utoa. etrans; [apply utoa_go_length|]. simpl.
    assert (Z.log2 m <= 63); [|lia].
    etrans; [apply Z.log2_le_mono, Hm|]. by rewrite Z.log2_pow2. }
  unfold itoa. destruct (Z.ltb_spec n 0).
  - simpl. specialize (Hu (- n)). lia.
  - specialize (Hu n). lia.
Qed.

End Decimal.

Section RecordFacts.

Lemma dropCR_id (s : string) : hasByte CR s = false -> dropCR s = s.
Proof.
  induction s as [|c s IH]; [done|]. cbn [hasByte].
  intros [Hc Hs]%orb_false_elim. simpl. rewrite Hc.
  destruct s; [done|]. by rewrite IH.
Qed.

Lemma recordLine_hasByte (c : ascii) (n : Z) :
  digitOf c = None -> Ascii.eqb "-"%char c = false ->
  hasByte c "last:" = false ->
  hasByte c ("last:" +:+ itoa n) = false.
Proof.
  intros Hd Hm Hl. by rewrite hasByte_app, Hl, itoa_hasByte.
Qed.

(** The scanner finds one line in a record. *)
Lemma scanAll_record (n : Z) :
  minInt <= n <= maxInt ->
  scanAll (record n) = (["last:" +:+ itoa n], None).
Proof.
  intros Hn. unfold scanAll, record.
  assert ("last:" +:+ itoa n +:+ nl = Join ["last:" +:+ itoa n; ""] nl) as ->.
  { cbn [Join]. by rewrite app_empty_r, app_assoc'. }
  rewrite rawLines_Join.
  - cbn [consumed]. rewrite bool_decide_true by done.
    rewrite tokensOf_short.
    + cbn [map]. by rewrite dropCR_id by (by apply recordLine_hasByte).
    + constructor; [|done]. unfold short, MaxScanTokenSize.
      rewrite length_app'. pose proof (itoa_length n Hn). simpl. lia.
  - constructor; [by apply recordLine_hasByte|by constructor].
Qed.

(** [extract] finds the anchor in that line. *)
Lemma extract_record (n : Z) :
  minInt <= n <= maxInt -> extract ("last:" +:+ itoa n) = Val (n, None).
Proof.
  intros Hn. unfold extract.
  change ("last:" +:+ itoa n) with ("last" +:+ String ":" (itoa n)).
  rewrite Split_app by done.
  rewrite Split_whole by (by apply itoa_hasByte).
  simpl. by rewrite Atoi_itoa.
Qed.

End RecordFacts.

Section AnchorFacts.
Variable env : environment.

(** Loading a record that a store has written. *)
Lemma getAnchor_record (s : scanner) (w : world) (n : Z) :
  openFails env = false ->
  files w !! iguFilePath s = Some (record n) ->
  minInt <= n <= maxInt ->
  getAnchor env s w
  = (Val (withAnchor s n, None),
     after w (files w) [CallStat (iguFilePath s); CallOpen (iguFilePath s)]).
Proof.
  intros Hopen Hfile Hn. unfold getAnchor, os_Stat, os_Open. run.
  rewrite Hfile, Hopen.
  assert (bool_decide ((if statFails env then Some false else None) = Some true)
          = false) as ->.
  { apply bool_decide_eq_false. by destruct (statFails env). }
  simpl. rewrite Hfile, (scanAll_record n Hn). simpl.
  rewrite (extract_record n Hn). by rewrite <- app_assoc.
Qed.

(** Loading when there is no record: an empty one is left behind, and
    the anchor in memory stays what it was. *)
Lemma getAnchor_absent (s : scanner) (w : world) :
  statFails env = false -> createFails env = false -> openFails env = false ->
  files w !! iguFilePath s = None ->
  getAnchor env s w
  = (Val (s, None),
     after w (<[iguFilePath s := ""]> (files w))
       [CallStat (iguFilePath s); CallCreate (iguFilePath s);
        CallOpen (iguFilePath s)]).
Proof.
  intros Hstat Hcreate Hopen Hfile. unfold getAnchor, os_Stat, os_Create, os_Open.
  run. rewrite Hstat, Hfile. simpl. rewrite Hcreate. simpl.
  rewrite Hopen, lookup_insert_eq. simpl.
  by rewrite <- !app_assoc.
Qed.

(** Loading a record whose first line is empty. *)
Lemma getAnchor_empty_line (s : scanner) (w : world) (data : string) :
  openFails env = false ->
  files w !! iguFilePath s = Some data ->
  dropCR (hd "" (Split data LF)) = "" ->
  getAnchor env s w
  = (Val (s, None),
     after w (files w) [CallStat (iguFilePath s); CallOpen (iguFilePath s)]).
Proof.
  intros Hopen Hfile Hline. unfold getAnchor, os_Stat, os_Open. run.
  rewrite Hfile, Hopen.
  assert (bool_decide ((if statFails env then Some false else None) = Some true)
          = false) as ->.
  { apply bool_decide_eq_false. by destruct (statFails env). }
  simpl. rewrite Hfile. unfold scanAll. rewrite rawLines_Split.
  destruct (Split data LF) as [|l ls] eqn:E; [by apply Split_not_nil in E|].
  simpl in Hline.
  assert (String.length l <= 1)%nat as Hlen.
  { destruct l as [|c [|c' l]]; simpl in *; [lia..|done]. }
  assert (tokensOf (consumed (l :: ls)) = ([], None)
          \/ exists ts e, tokensOf (consumed (l :: ls)) = ("" :: ts, e)) as Htok.
  { destruct ls as [|l' ls].
    - simpl. case_bool_decide; [by left|]. right. simpl.
      destruct (Z.leb_spec MaxScanTokenSize (Z.of_nat (String.length l)));
        [unfold MaxScanTokenSize in *; lia|].
      rewrite Hline. by eexists _, _.
    - right. rewrite consumed_cons by done. cbn [tokensOf].
      destruct (Z.leb_spec MaxScanTokenSize (Z.of_nat (String.length l)));
        [unfold MaxScanTokenSize in *; lia|].
      destruct (tokensOf (consumed (l' :: ls))) as [ts e].
      rewrite Hline. by eexists _, _. }
  destruct Htok as [->|(ts & e & ->)]; simpl; by rewrite <- app_assoc.
Qed.

(** A store that meets no failure. *)
Lemma setAnchor_done (s : scanner) (w : world) (n : Z) :
  openFileFails env = false -> writeShort env = None ->
  setAnchor env s n w
  = (Val None,
     after w (<[iguFilePath s := record n]> (files w))
       [CallOpenFile (iguFilePath s);
        CallWriteString (iguFilePath s) (record n)]).
Proof.
  intros Hopen Hwrite. unfold setAnchor, os_OpenFile_trunc, File_WriteString.
  run. rewrite Hopen. simpl. rewrite Hwrite. simpl.
  by rewrite insert_insert_eq, <- app_assoc.
Qed.

(** A store whose write fails after [k] bytes. *)
Lemma setAnchor_short (s : scanner) (w : world) (n : Z) (k : nat) :
  openFileFails env = false -> writeShort env = Some k ->
  setAnchor env s n w
  = (Val (Some (ErrWrite (iguFilePath s))),
     after w (<[iguFilePath s := String.substring 0 k (record n)]> (files w))
       [CallOpenFile (iguFilePath s);
        CallWriteString (iguFilePath s) (record n)]).
Proof.
  intros Hopen Hwrite. unfold setAnchor, os_OpenFile_trunc, File_WriteString.
  run. rewrite Hopen. simpl. rewrite Hwrite. simpl.
  by rewrite insert_insert_eq, <- app_assoc.
Qed.

(** A store that cannot open the record leaves the files alone. *)
Lemma setAnchor_closed (s : scanner) (w : world) (n : Z) :
  openFileFails env = true ->
  setAnchor env s n w
  = (Val (Some (ErrOpenFile (iguFilePath s))),
     after w (files w) [CallOpenFile (iguFilePath s)]).
Proof.
  intros Hopen. unfold setAnchor, os_OpenFile_trunc. run. by rewrite Hopen.
Qed.

End AnchorFacts.

(** C10: when the anchor record exists and its first line is empty (an
    empty file included), the load of a scanner as [createScanners] makes
    it succeeds, the anchor is 0, and the record is left as it is. *)
Theorem getAnchor_empty_first_line (env : environment) (iguDir : string)
    (sv : service) (w : world) (data : string) :
  openFails env = false ->
  files w !! iguFilePath (newScanner iguDir sv) = Some data ->
  dropCR (hd "" (Split data LF)) = "" ->
  exists s' w',
    getAnchor env (newScanner iguDir sv) w = (Val (s', None), w')
    /\ anchor s' = 0 /\ files w' = files w.
Proof.
  intros Hopen Hfile Hline.
  eexists _, _. split; [by eapply getAnchor_empty_line|done].
Qed.

Lemma getAnchor_empty_first_line_witness :
  exists s' w',
    getAnchor calm Apple.apple (Apple.known "" (logText ["a"]))
    = (Val (s', None), w')
    /\ anchor s' = 0 /\ files w' = files (Apple.known "" (logText ["a"])).
Proof.
  apply (getAnchor_empty_first_line calm "/tmp/igu" (svc Apple.apple)
           (Apple.known "" (logText ["a"])) "").
  - reflexivity.
  - reflexivity.
  - reflexivity.
Defined.

(** C6: when there is no anchor record, the load creates one and returns
    with the anchor 0, but the record it leaves is empty: the text
    [last:0] stays in the buffer of a writer that is never flushed. *)
Theorem getAnchor_creates_empty_record (env : environment) (iguDir : string)
    (sv : service) (w : world) :
  statFails env = false -> createFails env = false -> openFails env = false ->
  files w !! iguFilePath (newScanner iguDir sv) = None ->
  exists s' w',
    getAnchor env (newScanner iguDir sv) w = (Val (s', None), w')
    /\ anchor s' = 0
    /\ files w' !! iguFilePath (newScanner iguDir sv) = Some ""
    /\ "" <> record 0.
Proof.
  intros Hstat Hcreate Hopen Hfile.
  eexists _, _. split; [by apply getAnchor_absent|].
  split; [done|]. split; [|done]. simpl. by rewrite lookup_insert_eq.
Qed.

Lemma getAnchor_creates_empty_record_witness :
  exists s' w',
    getAnchor calm Apple.apple (Apple.fresh (logText ["a"]))
    = (Val (s', None), w')
    /\ anchor s' = 0
    /\ files w' !! Apple.igu = Some ""
    /\ "" <> record 0.
Proof.
  apply (getAnchor_creates_empty_record calm "/tmp/igu" (svc Apple.apple)
           (Apple.fresh (logText ["a"]))).
  - reflexivity.
  - reflexivity.
  - reflexivity.
  - reflexivity.
Defined.

(** * What a load, a scan and a store do to the files *)

Section LoadFacts.
Variable env : environment.

Lemma extract_error (line : string) (z : Z) (e : error) :
  extract line = Val (z, Some e) -> exists ne, e = ErrAtoi ne.
Proof.
  unfold extract. intros H. repeat (case_match; simplify_eq/=). by eexists.
Qed.

(** A load changes no file, but for creating an empty record. *)
Lemma getAnchor_files (s : scanner) (w w1 : world) r :
  getAnchor env s w = (r, w1) ->
  files w1 = files w
  \/ (files w !! iguFilePath s = None
      /\ files w1 = <[iguFilePath s := ""]> (files w)).
Proof.
  unfold getAnchor, os_Stat, os_Create, os_Open. run.
  intros H.
  destruct (statFails env), (files w !! iguFilePath s) eqn:Hf; simpl in H.
  all: repeat (case_match; simplify_eq/=); auto.
Qed.

(** A load changes the anchor of the scanner only. *)
Lemma getAnchor_scanner (s s1 : scanner) (w w1 : world) e :
  getAnchor env s w = (Val (s1, e), w1) -> s1 = withAnchor s (anchor s1).
Proof.
  unfold getAnchor, os_Stat, os_Create, os_Open. run.
  intros H. destruct s as [sv p a].
  destruct (statFails env), (files w !! p) eqn:Hf; simpl in H.
  all: repeat (case_match; simplify_eq/=); auto.
Qed.

(** What a load sees depends on the record only. *)
Lemma loadedAnchor_ext (fs fs' : gmap string string) (s : scanner) :
  fs !! iguFilePath s = fs' !! iguFilePath s ->
  loadedAnchor fs s = loadedAnchor fs' s.
Proof.
  intros H. unfold loadedAnchor, getAnchor, os_Stat, os_Create, os_Open. run.
  rewrite <- H. destruct (fs !! iguFilePath s) eqn:Hf; simpl;
    rewrite ?Hf, <- ?H, ?lookup_insert_eq; simpl;
    repeat (case_match; simplify_eq/=); done.
Qed.

Lemma loadedAnchor_empty (fs : gmap string string) (s : scanner) :
  fs !! iguFilePath s = Some "" -> loadedAnchor fs s = Some 0.
Proof.
  intros H. unfold loadedAnchor.
  by rewrite (getAnchor_empty_line calm _ _ "") by done.
Qed.

Lemma loadedAnchor_absent (fs : gmap string string) (s : scanner) :
  fs !! iguFilePath s = None -> loadedAnchor fs s = Some 0.
Proof.
  intros H. unfold loadedAnchor. by rewrite getAnchor_absent by done.
Qed.

Lemma loadedAnchor_record (fs : gmap string string) (s : scanner) (n : Z) :
  fs !! iguFilePath s = Some (record n) -> minInt <= n <= maxInt ->
  loadedAnchor fs s = Some n.
Proof.
  intros H Hn. unfold loadedAnchor.
  by rewrite (getAnchor_record calm _ _ n) by done.
Qed.

(** A record that load has just created reads like no record. *)
Lemma loadedAnchor_created (fs : gmap string string) (s : scanner) :
  fs !! iguFilePath s = None ->
  loadedAnchor (<[iguFilePath s := ""]> fs) s = loadedAnchor fs s.
Proof.
  intros H. rewrite (loadedAnchor_absent fs) by done.
  apply loadedAnchor_empty. by rewrite lookup_insert_eq.
Qed.

Lemma getAnchor_keeps_loaded (s : scanner) (w w1 : world) r :
  getAnchor env s w = (r, w1) ->
  loadedAnchor (files w1) s = loadedAnchor (files w) s.
Proof.
  intros H. destruct (getAnchor_files _ _ _ _ H) as [->|[Hnone ->]]; [done|].
  by apply loadedAnchor_created.
Qed.

(** The anchor a load has put into a fresh scanner is the one a load
    sees in the record. *)
Lemma getAnchor_loaded (s s1 : scanner) (w w1 : world) :
  anchor s = 0 ->
  getAnchor env s w = (Val (s1, None), w1) ->
  loadedAnchor (files w1) s = Some (anchor s1).
Proof.
  intros Ha H. destruct s as [sv p a]. simpl in Ha. subst a.
  revert H. unfold loadedAnchor, getAnchor, os_Stat, os_Create, os_Open. run.
  intros H.
  destruct (statFails env), (files w !! p) eqn:Hf; simpl in H.
  all: repeat (case_match; simplify_eq/=); auto.
  all: clash.
Qed.

End LoadFacts.

Section ScanFacts.
Variable env : environment.

Lemma scanFile_files (s : scanner) (w w2 : world) r :
  scanFile env s w = (r, w2) -> files w2 = files w.
Proof.
  unfold scanFile, ioutil_ReadFile, sliceFrom. run. intros H.
  repeat (case_match; simplify_eq/=); done.
Qed.

Lemma scanFile_range (s : scanner) (w w2 : world) n issues :
  scanFile env s w = (Val (n, issues, None), w2) -> minInt <= n <= maxInt.
Proof.
  unfold scanFile, ioutil_ReadFile, sliceFrom. run. intros H.
  repeat (case_match; simplify_eq/=); apply wrapInt_range.
Qed.

(** The ways a scan can end: without a store, with a store that is
    done, or with a store whose write stops short. *)
Lemma scan_outcomes (s : scanner) (w w' : world) r :
  scan env s w = (r, w') ->
  ((files w' = files w
    \/ (files w !! iguFilePath s = None
        /\ files w' = <[iguFilePath s := ""]> (files w)))
   /\ forall s1 e, r = Val (s1, [], Some e) -> e <> ErrWrite (iguFilePath s))
  \/ exists s1 w1 n issues w2,
       getAnchor env s w = (Val (s1, None), w1)
       /\ scanFile env s1 w1 = (Val (n, issues, None), w2)
       /\ anchor s1 < n
       /\ ((writeShort env = None /\ r = Val (s1, issues, None)
            /\ files w' = <[iguFilePath s := record n]> (files w1))
           \/ exists k, writeShort env = Some k
                /\ r = Val (s1, [], Some (ErrWrite (iguFilePath s)))
                /\ files w'
                   = <[iguFilePath s := String.substring 0 k (record n)]> (files w1)).
Proof.
  unfold scan. run.
  destruct (getAnchor env s w) as [[[s1 [e|]]|p] w1] eqn:Hg; simpl.
  - intros [= <- <-]. left. split; [by eapply getAnchor_files|].
    intros ? ? [= <- <-]. intros ->.
    revert Hg. unfold getAnchor, os_Stat, os_Create, os_Open. run. intros Hg.
    destruct (statFails env), (files w !! iguFilePath s); simpl in Hg;
      repeat (case_match; simplify_eq/=).
    all: match goal with
         | H : extract _ = Val (_, Some _) |- _ =>
             by apply extract_error in H as [? ?]
         end.
  - pose proof (getAnchor_scanner _ _ _ _ _ _ Hg) as Hs1.
    assert (iguFilePath s1 = iguFilePath s) as Higu by (by rewrite Hs1).
    destruct (scanFile env s1 w1) as [[[[n issues] [e|]]|p] w2] eqn:Hs; simpl.
    + intros [= <- <-]. left.
      rewrite (scanFile_files _ _ _ _ Hs). split; [by eapply getAnchor_files|].
      intros ? ? [= <- <-]. intros ->. revert Hs.
      unfold scanFile, ioutil_ReadFile, sliceFrom. run. intros Hs.
      repeat (case_match; simplify_eq/=).
    + pose proof (scanFile_files _ _ _ _ Hs) as Hw2.
      destruct (Z.ltb_spec (anchor s1) n) as [Hlt|Hge].
      * destruct (openFileFails env) eqn:Hopen.
        { rewrite setAnchor_closed by done. simpl. intros [= <- <-]. left.
          simpl. rewrite Hw2. split; [by eapply getAnchor_files|].
          intros ? ? [= <- <-]. done. }
        destruct (writeShort env) as [k|] eqn:Hwrite.
        { rewrite (setAnchor_short _ _ _ _ k) by done. simpl.
          intros [= <- <-]. right. exists s1, w1, n, issues, w2.
          do 3 (split; [done|]). right. exists k. simpl.
          by rewrite Higu, Hw2. }
        rewrite setAnchor_done by done. simpl.
        intros [= <- <-]. right. exists s1, w1, n, issues, w2.
        do 3 (split; [done|]). left. simpl. by rewrite Higu, Hw2.
      * intros [= <- <-]. left. rewrite Hw2.
        split; [by eapply getAnchor_files|]. intros ? ? [=].
    + intros [= <- <-]. left. rewrite (scanFile_files _ _ _ _ Hs).
      split; [by eapply getAnchor_files|]. done.
  - intros [= <- <-]. left. split; [by eapply getAnchor_files|]. done.
Qed.

End ScanFacts.

Section CycleFacts.
Variable env : environment.

(** With the write of the record working, a scan does not let the
    anchor fall. *)
Lemma scan_rises (s : scanner) (w w' : world) r (a : Z) :
  anchor s = 0 -> writeShort env = None ->
  scan env s w = (r, w') ->
  loadedAnchor (files w) s = Some a ->
  exists a', loadedAnchor (files w') s = Some a' /\ a <= a'.
Proof.
  intros Hs Hwrite Hscan Ha.
  destruct (scan_outcomes _ _ _ _ _ Hscan)
    as [[Hfiles _]|(s1 & w1 & n & issues & w2 & Hg & Hf & Hlt & Hend)].
  - exists a. split; [|lia]. destruct Hfiles as [->|[Hnone ->]]; [done|].
    by rewrite loadedAnchor_created.
  - destruct Hend as [(_ & _ & ->)|(k & Hk & _)]; [|congruence].
    exists n. split.
    + apply loadedAnchor_record; [by rewrite lookup_insert_eq|].
      by eapply scanFile_range.
    + pose proof (getAnchor_loaded _ _ _ _ _ Hs Hg) as Hl.
      rewrite (getAnchor_keeps_loaded _ _ _ _ _ Hg), Ha in Hl.
      injection Hl as ->. lia.
Qed.

(** [Execute] fails just when [scan] does, and does nothing more then. *)
Lemma Execute_failed (s s1 : scanner) (w w' : world) (e : error) :
  Execute env s w = (Val (s1, Some e), w') ->
  scan env s w = (Val (s1, [], Some e), w').
Proof.
  unfold Execute. run.
  destruct (scan env s w) as [[[[s' iss] [e'|]]|p] w0] eqn:Hscan; simpl.
  - intros [= <- <- <-]. f_equal. f_equal. f_equal.
    revert Hscan. unfold scan. run. intros Hscan.
    repeat (case_match; simplify_eq/=); done.
  - intros H. repeat (case_match; simplify_eq/=).
  - done.
Qed.

Lemma job_failed (s s1 : scanner) (w w' : world) (e : error) :
  Execute env s w = (Val (s1, Some e), w') ->
  job env s w = (Val (), after w' (files w') [CallLogPrintf (LogJobError e)]).
Proof. intros H. unfold job, log_Printf. run. by rewrite H. Qed.

End CycleFacts.

(** C8, as specified, fails: a store whose write fails leaves the record
    truncated, and the next load starts from 0 again. *)
Lemma failed_write_rewinds :
  ~ Specified.monotone Apple.apple
      [ {| tickEnv := cutAt 0; tickLog := logText ["a"; "b"; "c"; "d"] |} ]
      (Apple.known (record 3) (logText ["a"; "b"; "c"])).
Proof.
  intros H. specialize (H 3 ltac:(vm_compute; reflexivity)).
  vm_compute in H. destruct H as [H _]. by apply H.
Qed.

(** A write that stops part-way can even leave a record that reads as a
    smaller anchor: of [last:12] only [last:1] is written over [last:5]. *)
Lemma partial_write_stores_smaller :
  runScans Apple.apple
    [ {| tickEnv := cutAt 6;
         tickLog := logText ["a"; "b"; "c"; "d"; "e"; "f"; "g"; "h"; "i"; "j"; "k"; "l"] |} ]
    (Apple.known (record 5) (logText ["a"; "b"; "c"; "d"; "e"]))
  = [Some 1].
Proof. vm_compute. reflexivity. Qed.

(** C8, amended: over every sequence of scans of one source in which no
    write of the record stops short, the anchor a load sees never falls,
    whatever else fails and however the log changes in between. *)
Theorem anchor_never_falls (s : scanner) (ticks : list tick) :
  forall (w : world) (a : Z),
  anchor s = 0 ->
  iguFilePath s <> logFileLoc (svc s) ->
  Forall (fun t => writeShort (tickEnv t) = None) ticks ->
  loadedAnchor (files w) s = Some a ->
  rising a (runScans s ticks w).
Proof.
  induction ticks as [|t rest IH]; intros w a Hs Hne Hall Ha; [done|].
  inversion Hall as [|? ? Ht Hrest]; subst. cbn [runScans].
  assert (loadedAnchor (files (setLog s (tickLog t) w)) s = Some a) as Ha'.
  { rewrite <- Ha. apply loadedAnchor_ext. simpl. by rewrite lookup_insert_ne. }
  destruct (scan (tickEnv t) s (setLog s (tickLog t) w)) as [r w'] eqn:Hscan.
  destruct (scan_rises _ _ _ _ _ _ Hs Ht Hscan Ha') as (a' & Hl & Hle).
  destruct r as [x|p]; rewrite Hl; simpl; (split; [done|]); [|done].
  by apply IH.
Qed.

Lemma anchor_never_falls_witness :
  rising 0
    (runScans Apple.apple
       [ {| tickEnv := calm; tickLog := logText ["a"; "b"] |};
         {| tickEnv := calm; tickLog := logText ["a"; "b"; "c"] |} ]
       (Apple.fresh "")).
Proof.
  apply (anchor_never_falls Apple.apple
           [ {| tickEnv := calm; tickLog := logText ["a"; "b"] |};
             {| tickEnv := calm; tickLog := logText ["a"; "b"; "c"] |} ]
           (Apple.fresh "") 0).
  - reflexivity.
  - discriminate.
  - repeat constructor.
  - vm_compute. reflexivity.
Defined.

(** C5, as specified, fails: when the write of the record fails, the
    cycle fails and the persisted anchor is not what it was. *)
Lemma failed_write_loses_anchor :
  ~ Specified.keptOnFailure (cutAt 0) Apple.apple
      (Apple.known (record 1) (logText ["a"; "b"])).
Proof.
  intros H.
  specialize (H (withAnchor Apple.apple 1) (ErrWrite Apple.igu)
                (Execute (cutAt 0) Apple.apple
                   (Apple.known (record 1) (logText ["a"; "b"]))).2
                ltac:(vm_compute; reflexivity)).
  vm_compute in H. discriminate H.
Qed.

(** C5, amended: when the cycle of a source fails, then unless the error
    is that of the write of the record, a load sees the anchor it saw
    before; when it is that error, the record holds what was written of
    the new text. In both cases the worker logs the error, its job
    returns, and the jobs that follow run. *)
Theorem failed_cycle (env : environment) (s s1 : scanner) (w w' : world)
    (e : error) :
  Execute env s w = (Val (s1, Some e), w') ->
  (e <> ErrWrite (iguFilePath s) ->
   loadedAnchor (files w') s = loadedAnchor (files w) s)
  /\ (e = ErrWrite (iguFilePath s) ->
      exists k n, writeShort env = Some k
        /\ files w' !! iguFilePath s = Some (String.substring 0 k (record n)))
  /\ job env s w = (Val (), after w' (files w') [CallLogPrintf (LogJobError e)])
  /\ forall rest,
       runJobs ((env, s) :: rest) w
       = runJobs rest (after w' (files w') [CallLogPrintf (LogJobError e)]).
Proof.
  intros Hexec. pose proof (job_failed _ _ _ _ _ _ Hexec) as Hjob.
  pose proof (Execute_failed _ _ _ _ _ _ Hexec) as Hscan.
  destruct (scan_outcomes _ _ _ _ _ Hscan)
    as [[Hfiles Herr]|(s2 & w1 & n & issues & w2 & Hg & Hf & Hlt & Hend)].
  - split; [|split; [|split]].
    + intros _. destruct Hfiles as [->|[Hnone ->]]; [done|].
      by apply loadedAnchor_created.
    + intros ->. by destruct (Herr s1 _ eq_refl).
    + done.
    + intros rest. cbn [runJobs]. unfold mbind, M_bind. by rewrite Hjob.
  - destruct Hend as [(_ & [=] & _)|(k & Hk & [= <- <-] & Hw')].
    split; [|split; [|split]].
    + done.
    + intros _. exists k, n. split; [done|]. by rewrite Hw', lookup_insert_eq.
    + done.
    + intros rest. cbn [runJobs]. unfold mbind, M_bind. by rewrite Hjob.
Qed.

Lemma failed_cycle_witness :
  let w := {| files := ∅; trace := [] |} in
  let w' := (Execute calm Apple.apple w).2 in
  loadedAnchor (files w') Apple.apple = loadedAnchor (files w) Apple.apple
  /\ job calm Apple.apple w
     = (Val (), after w' (files w')
                  [CallLogPrintf (LogJobError (ErrReadFile Apple.log))]).
Proof.
  intros w w'.
  destruct (failed_cycle calm Apple.apple Apple.apple w w' (ErrReadFile Apple.log))
    as (Hkept & _ & Hjob & _).
  - vm_compute. reflexivity.
  - split; [apply Hkept; discriminate|exact Hjob].
Defined.

(** C3, as specified, fails: a store that stops once the record is
    truncated leaves neither the old anchor nor the new one to load. *)
Lemma store_is_not_atomic :
  ~ Specified.crashAtomic Apple.apple
      (Apple.known (record 5) (logText ["a"])) 7.
Proof.
  intros H. specialize (H 0%nat 5 ltac:(vm_compute; reflexivity)).
  vm_compute in H. destruct H as [H|H]; discriminate H.
Qed.

(** C3, amended: the store writes the record in place. It truncates the
    record and then writes the new text: once it is done, the record is
    that text, and a load returns the new anchor; when it stops after
    the truncation, the record is empty, and a load returns 0. *)
Theorem setAnchor_in_place (env : environment) (s : scanner) (w : world)
    (n : Z) :
  openFileFails env = false -> writeShort env = None ->
  minInt <= n <= maxInt ->
  (exists w',
     setAnchor env s n w = (Val None, w')
     /\ files w' = <[iguFilePath s := record n]> (files w)
     /\ loadedAnchor (files w') s = Some n)
  /\ (exists w',
        setAnchor (cutAt 0) s n w = (Val (Some (ErrWrite (iguFilePath s))), w')
        /\ files w' = <[iguFilePath s := ""]> (files w)
        /\ loadedAnchor (files w') s = Some 0).
Proof.
  intros Hopen Hwrite Hn. split.
  - eexists. split; [by apply setAnchor_done|]. split; [done|].
    apply loadedAnchor_record; [|done]. simpl. by rewrite lookup_insert_eq.
  - eexists. split; [by apply (setAnchor_short (cutAt 0) s w n 0)|].
    split; [done|]. apply loadedAnchor_empty. simpl. by rewrite lookup_insert_eq.
Qed.

Lemma setAnchor_in_place_witness :
  (exists w',
     setAnchor calm Apple.apple 7 (Apple.known (record 5) "") = (Val None, w')
     /\ files w' = <[Apple.igu := record 7]> (files (Apple.known (record 5) ""))
     /\ loadedAnchor (files w') Apple.apple = Some 7)
  /\ (exists w',
        setAnchor (cutAt 0) Apple.apple 7 (Apple.known (record 5) "")
        = (Val (Some (ErrWrite Apple.igu)), w')
        /\ files w' = <[Apple.igu := ""]> (files (Apple.known (record 5) ""))
        /\ loadedAnchor (files w') Apple.apple = Some 0).
Proof.
  apply (setAnchor_in_place calm Apple.apple (Apple.known (record 5) "") 7).
  - reflexivity.
  - reflexivity.
  - vm_compute. split; discriminate.
Defined.

Section MarkerFacts.

Lemma prefix_app (m s x : string) :
  String.prefix m s = true -> String.prefix m (s +:+ x) = true.
Proof.
  revert s. induction m as [|c m IH]; intros s;
    [by intros _; destruct (s +:+ x)|].
  destruct s as [|c' s]; [done|]. rewrite app_cons. simpl.
  destruct (ascii_dec c c'); [apply IH|done].
Qed.

Lemma Contains_app (m s x : string) :
  Contains s m = true -> Contains (s +:+ x) m = true.
Proof.
  induction s as [|c s IH].
  - cbn [Contains]. rewrite orb_false_r. intros H.
    destruct m; [by destruct x|done].
  - rewrite app_cons. cbn [Contains]. intros [H|H]%orb_true_iff.
    + change (String c (s +:+ x)) with (String c s +:+ x).
      by rewrite (prefix_app _ _ x H).
    + by rewrite (IH H), orb_true_r.
Qed.

Lemma dropCR_prefix (s : string) : exists x, s = dropCR s +:+ x.
Proof.
  induction s as [|c s [x IH]]; [by exists ""|].
  destruct s as [|c' s].
  - simpl. destruct (Ascii.eqb c CR); [by exists (String c "")|by exists ""].
  - exists x. change (dropCR (String c (String c' s)))
      with (String c (dropCR (String c' s))).
    rewrite app_cons. by rewrite <- IH.
Qed.

(** A line without the marker has none once the scanner has cut it. *)
Lemma marked_dropCR (l : string) : marked l = false -> marked (dropCR l) = false.
Proof.
  intros H. destruct (marked (dropCR l)) eqn:E; [|done].
  destruct (dropCR_prefix l) as [x Hx]. rewrite Hx in H.
  unfold marked in *. by rewrite (Contains_app _ _ x E) in H.
Qed.

Lemma logText_Join (ls : list string) :
  ls <> [] -> logText ls = Join (ls ++ [""]) nl.
Proof.
  intros Hne. unfold logText. destruct ls as [|l ls]; [done|clear Hne].
  revert l. induction ls as [|l' ls IH]; intros l.
  - simpl. by rewrite app_empty_r.
  - change (Join (l :: l' :: ls) nl) with (l +:+ nl +:+ Join (l' :: ls) nl).
    change (Join ((l :: l' :: ls) ++ [""]) nl)
      with (l +:+ nl +:+ Join ((l' :: ls) ++ [""]) nl).
    by rewrite <- IH, !app_assoc'.
Qed.

(** The split of a log text: its lines, and an empty element after the
    last newline. *)
Lemma Split_logText (ls : list string) :
  ls <> [] -> Forall (fun l => hasByte LF l = false) ls ->
  Split (logText ls) LF = ls ++ [""].
Proof.
  intros Hne Hall. rewrite logText_Join by done. unfold nl.
  apply Split_Join; [by destruct ls|].
  apply Forall_app. split; [done|]. by constructor.
Qed.

End MarkerFacts.

Section CompleteLogs.
Variable env : environment.

Lemma consumed_snoc (ls : list string) : consumed (ls ++ [""]) = ls.
Proof.
  induction ls as [|l ls IH]; [done|].
  change ((l :: ls) ++ [""]) with (l :: (ls ++ [""])).
  rewrite consumed_cons by (by destruct ls). by rewrite IH.
Qed.

(** On a log whose lines all end in a newline the scan is the specified
    one, but for the carriage returns: the lines from the anchor on are
    all counted, and those with the marker are the findings. *)
Lemma scanFile_complete_log (s : scanner) (w : world) (ls : list string) :
  readFileFails env = false ->
  files w !! logFileLoc (svc s) = Some (logText ls) ->
  ls <> [] ->
  Forall (fun l => hasByte LF l = false /\ short l) ls ->
  0 <= anchor s <= Z.of_nat (length ls) ->
  Z.of_nat (length ls) < maxInt ->
  exists issues w',
    scanFile env s w
    = (Val (anchor s + Z.of_nat (length (drop (Z.to_nat (anchor s)) ls)),
            issues, None), w')
    /\ map Body issues
       = filter (fun l => marked l = true)
           (map dropCR (drop (Z.to_nat (anchor s)) ls)).
Proof.
  intros Hread Hdat Hne Hlines Ha Hlen.
  assert (Split (logText ls) LF = ls ++ [""]) as Hsplit.
  { apply Split_logText; [done|].
    eapply Forall_impl; [exact Hlines|by intros ? [? ?]]. }
  assert (drop (Z.to_nat (anchor s)) (ls ++ [""])
          = drop (Z.to_nat (anchor s)) ls ++ [""]) as Hdrop
    by (rewrite drop_app_le; [done|lia]).
  pose proof (scanFile_lines env s w (logText ls) Hread Hdat) as Hrun.
  rewrite Hsplit, Hdrop, consumed_snoc, length_app in Hrun.
  eexists _, _. split.
  - apply Hrun.
    + simpl. lia.
    + simpl. lia.
    + apply Forall_app. split; [|by repeat constructor].
      apply Forall_drop. eapply Forall_impl; [exact Hlines|by intros ? [? ?]].
  - apply issuesOf_Body.
Qed.

End CompleteLogs.

Section ScanLines.
Variable env : environment.

(** A scan in which nothing fails, once the anchor is loaded. *)
Lemma scan_lines (s s1 : scanner) (w w1 : world) (dat : string) :
  getAnchor env s w = (Val (s1, None), w1) ->
  readFileFails env = false -> openFileFails env = false ->
  writeShort env = None ->
  files w1 !! logFileLoc (svc s) = Some dat ->
  0 <= anchor s1 <= Z.of_nat (length (Split dat LF)) ->
  Z.of_nat (length (Split dat LF)) <= maxInt ->
  Forall short (drop (Z.to_nat (anchor s1)) (Split dat LF)) ->
  let lines := consumed (drop (Z.to_nat (anchor s1)) (Split dat LF)) in
  let n := anchor s1 + Z.of_nat (length lines) in
  exists w',
    scan env s w
    = (Val (s1, issuesOf env (name (svc s)) 0 (map dropCR lines), None), w')
    /\ files w' = if anchor s1 <? n
                  then <[iguFilePath s := record n]> (files w1)
                  else files w1.
Proof.
  intros Hg Hread Hopen Hwrite Hdat Ha Hlen Hshort lines n.
  pose proof (getAnchor_scanner _ _ _ _ _ _ Hg) as Hs1.
  assert (svc s1 = svc s) as Hsvc by (by rewrite Hs1).
  assert (iguFilePath s1 = iguFilePath s) as Higu by (by rewrite Hs1).
  unfold scan. run. rewrite Hg. simpl.
  rewrite (scanFile_lines env s1 w1 dat) by (by rewrite ?Hsvc).
  simpl. fold lines. fold n. rewrite Hsvc.
  destruct (anchor s1 <? n).
  - rewrite setAnchor_done by done. simpl. rewrite Higu. by eexists.
  - by eexists.
Qed.

End ScanLines.

(** C7, as specified, fails: the first scan counts the three lines and
    stores the anchor 3; it does not stay 0. *)
Lemma first_scan_moves_anchor :
  ~ Specified.scenario calm calm Apple.apple (Apple.fresh "")
      "a" "b" "c" "d" "error occurred".
Proof.
  intros (s1 & w1 & s2 & issues & w2 & H1 & Hl & _).
  vm_compute in H1. injection H1 as <- <-.
  vm_compute in Hl. discriminate Hl.
Qed.

(** C7, amended: for a log of three complete lines without the marker
    and no anchor record yet, a scan yields no finding and stores the
    anchor 3; once two lines are appended, one of them the line
    [error occurred] and the other without the marker, the next scan
    loads the anchor 3, stores 5 and yields exactly one finding, whose
    body is [error occurred]. *)
Theorem scenario_three_then_two (env1 env2 : environment) (s : scanner)
    (w : world) (l1 l2 l3 l4 l5 : string) :
  filesWork env1 -> filesWork env2 ->
  anchor s = 0 ->
  iguFilePath s <> logFileLoc (svc s) ->
  files w !! iguFilePath s = None ->
  Forall (fun l => hasByte LF l = false /\ short l) [l1; l2; l3; l4; l5] ->
  Forall (fun l => marked l = false) [l1; l2; l3] ->
  (l4 = "error occurred" /\ marked l5 = false)
  \/ (marked l4 = false /\ l5 = "error occurred") ->
  exists w1 issues w2,
    scan env1 s (setLog s (logText [l1; l2; l3]) w) = (Val (s, [], None), w1)
    /\ loadedAnchor (files w1) s = Some 3
    /\ scan env2 s (setLog s (logText [l1; l2; l3; l4; l5]) w1)
       = (Val (withAnchor s 3, issues, None), w2)
    /\ loadedAnchor (files w2) s = Some 5
    /\ map Body issues = ["error occurred"].
Proof.
  intros (Hst1 & Hcr1 & Hop1 & Hof1 & Hwr1 & Hrd1)
         (Hst2 & Hcr2 & Hop2 & Hof2 & Hwr2 & Hrd2) Hs Hne Hnone Hlines Hclean Hnew.
  assert (Forall (fun l => hasByte LF l = false) [l1; l2; l3; l4; l5]) as Hlf
    by (eapply Forall_impl; [exact Hlines|by intros ? [? ?]]).
  assert (Forall short [l1; l2; l3; l4; l5]) as Hsh
    by (eapply Forall_impl; [exact Hlines|by intros ? [? ?]]).
  assert (short "") as Hsh0 by done.
  repeat match goal with
         | H : Forall _ (_ :: _) |- _ => apply Forall_cons in H as [? H]
         end.
  (* the first scan *)
  pose (w0 := setLog s (logText [l1; l2; l3]) w).
  assert (getAnchor env1 s w0
          = (Val (s, None),
             after w0 (<[iguFilePath s := ""]> (files w0))
               [CallStat (iguFilePath s); CallCreate (iguFilePath s);
                CallOpen (iguFilePath s)])) as Hg1.
  { apply getAnchor_absent; [done..|]. simpl. by rewrite lookup_insert_ne. }
  destruct (scan_lines env1 s s w0 _ (logText [l1; l2; l3]) Hg1)
    as (w1 & Hscan1 & Hfiles1); [done..| | | | |].
  { simpl. rewrite lookup_insert_ne by done. by rewrite lookup_insert_eq. }
  { rewrite Split_logText by (by repeat constructor). rewrite Hs. simpl. lia. }
  { rewrite Split_logText by (by repeat constructor). by vm_compute. }
  { rewrite Split_logText by (by repeat constructor). rewrite Hs.
    by repeat constructor. }
  rewrite Split_logText in Hscan1, Hfiles1 by (by repeat constructor).
  rewrite Hs in Hscan1, Hfiles1. simpl in Hscan1, Hfiles1.
  rewrite !marked_dropCR in Hscan1 by done. simpl in Hscan1.
  assert (files w1 !! iguFilePath s = Some (record 3)) as Hrec1
    by (by rewrite Hfiles1, lookup_insert_eq).
  (* the second scan *)
  pose (w1' := setLog s (logText [l1; l2; l3; l4; l5]) w1).
  assert (getAnchor env2 s w1'
          = (Val (withAnchor s 3, None),
             after w1' (files w1')
               [CallStat (iguFilePath s); CallOpen (iguFilePath s)])) as Hg2.
  { apply getAnchor_record; [done| |by vm_compute].
    simpl. by rewrite lookup_insert_ne. }
  destruct (scan_lines env2 s _ w1' _ (logText [l1; l2; l3; l4; l5]) Hg2)
    as (w2 & Hscan2 & Hfiles2); [done..| | | | |].
  { simpl. by rewrite lookup_insert_eq. }
  { rewrite Split_logText by (by repeat constructor). simpl. lia. }
  { rewrite Split_logText by (by repeat constructor). by vm_compute. }
  { rewrite Split_logText by (by repeat constructor). by repeat constructor. }
  rewrite Split_logText in Hscan2, Hfiles2 by (by repeat constructor).
  simpl in Hscan2, Hfiles2.
  exists w1, (issuesOf env2 (name (svc s)) 0 [dropCR l4; dropCR l5]), w2.
  split; [exact Hscan1|]. split; [by apply loadedAnchor_record|].
  split; [exact Hscan2|]. split.
  - apply loadedAnchor_record; [|by vm_compute].
    by rewrite Hfiles2, lookup_insert_eq.
  - rewrite issuesOf_Body.
    destruct Hnew as [[-> Hm]|[Hm ->]].
    + rewrite filter_cons_True by done.
      rewrite filter_cons_False by (by rewrite marked_dropCR). done.
    + rewrite filter_cons_False by (by rewrite marked_dropCR).
      by rewrite filter_cons_True by done.
Qed.

Lemma scenario_three_then_two_witness :
  exists w1 issues w2,
    scan calm Apple.apple (setLog Apple.apple (logText ["a"; "b"; "c"]) (Apple.fresh ""))
    = (Val (Apple.apple, [], None), w1)
    /\ loadedAnchor (files w1) Apple.apple = Some 3
    /\ scan calm Apple.apple
         (setLog Apple.apple (logText ["a"; "b"; "c"; "d"; "error occurred"]) w1)
       = (Val (withAnchor Apple.apple 3, issues, None), w2)
    /\ loadedAnchor (files w2) Apple.apple = Some 5
    /\ map Body issues = ["error occurred"].
Proof.
  apply (scenario_three_then_two calm calm Apple.apple (Apple.fresh "")
           "a" "b" "c" "d" "error occurred").
  - repeat split.
  - repeat split.
  - reflexivity.
  - discriminate.
  - reflexivity.
  - repeat constructor.
  - repeat constructor.
  - right. split; reflexivity.
Defined.

(** * The calls of a job, in their order *)

Section TraceFacts.
Variable env : environment.

Lemma getAnchor_trace (s : scanner) (w : world) :
  exists evs, trace (getAnchor env s w).2 = trace w ++ evs
              /\ Forall (fun e => phase e = 0%nat) evs.
Proof.
  unfold getAnchor, os_Stat, os_Create, os_Open. run.
  destruct (statFails env), (files w !! iguFilePath s); simpl;
    repeat (case_match; simplify_eq/=);
    (eexists; split; [rewrite <- ?app_assoc; reflexivity|by repeat constructor]).
Qed.

Lemma scanFile_trace (s : scanner) (w : world) :
  trace (scanFile env s w).2 = trace w ++ [CallReadFile (logFileLoc (svc s))].
Proof.
  unfold scanFile, ioutil_ReadFile, sliceFrom. run.
  repeat (case_match; simplify_eq/=); done.
Qed.

Lemma setAnchor_trace (s : scanner) (n : Z) (w : world) :
  exists evs, trace (setAnchor env s n w).2 = trace w ++ evs
              /\ Forall (fun e => phase e = 2%nat) evs /\ evs <> [].
Proof.
  unfold setAnchor, os_OpenFile_trunc, File_WriteString. run.
  repeat (case_match; simplify_eq/=);
    (eexists; split; [rewrite <- ?app_assoc; reflexivity|];
     split; [by repeat constructor|done]).
Qed.

(** The submissions: one call of the issue tracker for each request,
    in their order, and log lines in between. *)
Lemma submitAll_trace (s : scanner) (issReqs : list IssueRequest) :
  forall (k : nat) (w : world),
  exists evs,
    submitAll env s k issReqs w
    = (Val (), after w (files w) evs)
    /\ Forall (fun e => phase e = 3%nat) evs
    /\ filter (fun e => isSubmit e = true) evs
       = map (CallIssuesCreate (repoOwner (svc s)) (repoName (svc s))) issReqs.
Proof.
  induction issReqs as [|req rest IH]; intros k w.
  - exists []. unfold after. simpl. rewrite app_nil_r. by destruct w.
  - cbn [submitAll]. unfold Issues_Create, log_Printf. run.
    destruct (issueFails env k); simpl;
      match goal with
      | |- context [submitAll env s (S k) rest ?w1] =>
          destruct (IH (S k) w1) as (evs & -> & Hph & Hsub)
      end; unfold after; simpl.
    + exists (CallIssuesCreate (repoOwner (svc s)) (repoName (svc s)) req
              :: CallLogPrintf (LogError (ErrIssue k)) :: evs).
      split; [by rewrite <- !app_assoc|]. split; [by repeat constructor|].
      rewrite filter_cons_True by done. rewrite filter_cons_False by done.
      by rewrite Hsub.
    + exists (CallIssuesCreate (repoOwner (svc s)) (repoName (svc s)) req :: evs).
      split; [by rewrite <- !app_assoc|]. split; [by repeat constructor|].
      rewrite filter_cons_True by done. by rewrite Hsub.
Qed.

End TraceFacts.

Section Order.
Variable env : environment.

Lemma scan_trace (s : scanner) (w : world) :
  exists load scanned stored,
    trace (scan env s w).2 = trace w ++ load ++ scanned ++ stored
    /\ Forall (fun e => phase e = 0%nat) load
    /\ Forall (fun e => phase e = 1%nat) scanned
    /\ Forall (fun e => phase e = 2%nat) stored
    /\ (stored <> [] <-> storeDue env s w).
Proof.
  destruct (getAnchor_trace env s w) as (ev0 & Ht0 & Hp0).
  unfold scan, storeDue. run.
  destruct (getAnchor env s w) as [[[s1 [e|]]|p] w1] eqn:Hg; simpl in *.
  - exists ev0, [], []. simpl. rewrite !app_nil_r.
    do 4 (split; [done|]). split; [done|].
    intros (? & ? & ? & ? & ? & [=] & _).
  - pose proof (scanFile_trace env s1 w1) as Ht1.
    destruct (scanFile env s1 w1) as [[[[n issues] [e|]]|p] w2] eqn:Hs;
      simpl in *.
    + exists ev0, [CallReadFile (logFileLoc (svc s1))], [].
      simpl. rewrite Ht1, Ht0, <- app_assoc.
      do 2 (split; [done|]). split; [by repeat constructor|].
      split; [done|]. split; [done|].
      intros (? & ? & ? & ? & ? & [= <- <-] & Hs' & _). congruence.
    + destruct (Z.ltb_spec (anchor s1) n) as [Hlt|Hge].
      * destruct (setAnchor_trace env s1 n w2) as (ev2 & Ht2 & Hp2 & Hne2).
        exists ev0, [CallReadFile (logFileLoc (svc s1))], ev2.
        assert (trace (setAnchor env s1 n w2).2
                = trace w ++ ev0 ++ [CallReadFile (logFileLoc (svc s1))] ++ ev2)
          as Htr by (by rewrite Ht2, Ht1, Ht0, <- !app_assoc).
        split.
        { destruct (setAnchor env s1 n w2) as [[[e|]|p] w3]; exact Htr. }
        do 1 (split; [done|]). split; [by repeat constructor|].
        split; [done|]. split; [intros _|done].
        by exists s1, w1, n, issues, w2.
      * exists ev0, [CallReadFile (logFileLoc (svc s1))], [].
        simpl. rewrite Ht1, Ht0, <- app_assoc.
        do 2 (split; [done|]). split; [by repeat constructor|].
        split; [done|]. split; [done|].
        intros (? & ? & ? & ? & ? & [= <- <-] & Hs' & Hlt).
        rewrite Hs in Hs'. injection Hs' as <- <- <-. lia.
    + exists ev0, [CallReadFile (logFileLoc (svc s1))], [].
      simpl. rewrite Ht1, Ht0, <- app_assoc.
      do 2 (split; [done|]). split; [by repeat constructor|].
      split; [done|]. split; [done|].
      intros (? & ? & ? & ? & ? & [= <- <-] & Hs' & _). congruence.
  - exists ev0, [], []. simpl. rewrite !app_nil_r.
    do 4 (split; [done|]). split; [done|].
    intros (? & ? & ? & ? & ? & [=] & _).
Qed.

Lemma scan_scanner (s s1 : scanner) (w w' : world) issReqs e :
  scan env s w = (Val (s1, issReqs, e), w') -> svc s1 = svc s.
Proof.
  unfold scan. run.
  destruct (getAnchor env s w) as [[[s0 e0]|p] w1] eqn:Hg; simpl; [|done].
  apply getAnchor_scanner in Hg. intros H.
  assert (s1 = s0) as -> by (repeat (case_match; simplify_eq/=); done).
  by rewrite Hg.
Qed.

End Order.

(** C4, as specified, fails: the record is written before the issue is
    submitted. *)
Lemma store_precedes_submit :
  ~ Specified.submitBeforeStore
      (trace (Execute calm Apple.apple (Apple.fresh ("ok" +:+ nl +:+ "error x"))).2).
Proof.
  intros H.
  assert (7 < 4)%nat; [|lia].
  eapply (H 4%nat 7%nat); [vm_compute; reflexivity..|reflexivity|reflexivity].
Qed.

Local Arguments submitAll : simpl never.

(** C4, amended: the calls of a job come in this order: those of the load
    of the anchor, then the reading of the log, then those of the store,
    then the submissions. The store is made just when load and scan
    succeed and the new anchor is greater than the loaded one, and when
    the scan succeeds each of its findings is submitted, in their order. *)
Theorem Execute_order (env : environment) (s : scanner) (w : world) :
  exists load scanned stored submitted,
    trace (Execute env s w).2 = trace w ++ load ++ scanned ++ stored ++ submitted
    /\ Forall (fun e => phase e = 0%nat) load
    /\ Forall (fun e => phase e = 1%nat) scanned
    /\ Forall (fun e => phase e = 2%nat) stored
    /\ Forall (fun e => phase e = 3%nat) submitted
    /\ (stored <> [] <-> storeDue env s w)
    /\ (forall s1 issReqs w0,
          scan env s w = (Val (s1, issReqs, None), w0) ->
          filter (fun e => isSubmit e = true) submitted
          = map (CallIssuesCreate (repoOwner (svc s)) (repoName (svc s))) issReqs).
Proof.
  destruct (scan_trace env s w)
    as (load & scanned & stored & Htr & Hp0 & Hp1 & Hp2 & Hdue).
  exists load, scanned, stored.
  unfold Execute, log_Printf. run.
  destruct (scan env s w) as [[[[s1 iss] [e|]]|p] w0] eqn:Hscan; simpl in *.
  - exists []. rewrite Htr, !app_nil_r. do 6 (split; [done|]). intros ? ? ? [=].
  - pose proof (scan_scanner _ _ _ _ _ _ _ Hscan) as Hsvc.
    destruct iss as [|req rest]; simpl.
    + exists []. rewrite Htr, !app_nil_r. do 6 (split; [done|]).
      by intros ? ? ? [= <- <- <-].
    + match goal with
      | |- context [submitAll env s1 0 (req :: rest) ?w1] =>
          destruct (submitAll_trace env s1 (req :: rest) 0 w1)
            as (evs & -> & Hp3 & Hsub)
      end.
      exists (CallLogPrintf (LogNewErrors (S (length rest))) :: evs).
      unfold after. simpl. rewrite Htr, <- !app_assoc.
      do 4 (split; [done|]). split; [by constructor|]. split; [done|].
      intros ? ? ? [= <- <- <-]. rewrite filter_cons_False by done.
      by rewrite Hsub, Hsvc.
  - exists []. rewrite Htr, !app_nil_r. do 6 (split; [done|]). intros ? ? ? [=].
Qed.


(** * The worker pool *)

Section PoolFacts.
Import Pool.
Variable scanners : list scanner.
Variable maxWorkers : Z.

(** Every tick adds [workerN] workers to those there are. *)
Lemma tick_adds_workers (ws : list worker) (q : list scanner) :
  0 <= workerN scanners maxWorkers ->
  rtc (step scanners maxWorkers)
    {| workers := ws; queue := q; at_ := AwaitTick |}
    {| workers := ws ++ replicate (Z.to_nat (workerN scanners maxWorkers)) Idle;
       queue := q; at_ := PushScanners scanners |}.
Proof.
  intros Hn. eapply rtc_l; [apply step_tick|].
  assert (forall (k : nat) ws',
    Z.of_nat k <= workerN scanners maxWorkers ->
    rtc (step scanners maxWorkers)
      {| workers := ws'; queue := q;
         at_ := StartWorkers (workerN scanners maxWorkers - Z.of_nat k + 1) |}
      {| workers := ws' ++ replicate k Idle; queue := q;
         at_ := PushScanners scanners |}) as Hloop.
  { induction k as [|k IH]; intros ws' Hk.
    - simpl. rewrite app_nil_r. apply rtc_once.
      apply step_started. lia.
    - eapply rtc_l; [apply step_go; lia|].
      replace (workerN scanners maxWorkers - Z.of_nat (S k) + 1 + 1)
        with (workerN scanners maxWorkers - Z.of_nat k + 1) by lia.
      replace (ws' ++ replicate (S k) Idle)
        with ((ws' ++ [Idle]) ++ replicate k Idle)
        by (by rewrite <- app_assoc).
      apply IH. lia. }
  specialize (Hloop (Z.to_nat (workerN scanners maxWorkers)) ws).
  rewrite Z2Nat.id in Hloop by done.
  replace (workerN scanners maxWorkers - workerN scanners maxWorkers + 1)
    with 1 in Hloop by lia.
  apply Hloop. lia.
Qed.

(** One worker gets through all the scanners of a cycle. *)
Lemma cycle_drains (ws : list worker) (rest : list scanner) :
  1 <= workerN scanners maxWorkers ->
  rtc (step scanners maxWorkers)
    {| workers := Idle :: ws; queue := []; at_ := PushScanners rest |}
    {| workers := Idle :: ws; queue := []; at_ := AwaitTick |}.
Proof.
  intros Hn. induction rest as [|s rest IH].
  - apply rtc_once, step_pushed.
  - eapply rtc_l; [apply step_push; simpl; lia|].
    eapply rtc_l; [apply (step_take scanners maxWorkers [] ws s [])|].
    eapply rtc_l; [apply (step_done scanners maxWorkers [] ws s [])|].
    exact IH.
Qed.

(** After [k] ticks there are [k] times [workerN] workers. *)
Lemma workers_after_ticks (k : nat) :
  1 <= workerN scanners maxWorkers ->
  exists p, reachable scanners maxWorkers p
            /\ Z.of_nat (length (workers p))
               = Z.of_nat k * workerN scanners maxWorkers.
Proof.
  intros Hn.
  assert (exists m : nat,
    Z.of_nat m = Z.of_nat k * workerN scanners maxWorkers
    /\ rtc (step scanners maxWorkers)
         {| workers := []; queue := []; at_ := AwaitTick |}
         {| workers := replicate m Idle; queue := []; at_ := AwaitTick |})
    as (m & Hm & Hrun).
  { induction k as [|k (m & Hm & Hrun)].
    - exists 0%nat. split; [lia|apply rtc_refl].
    - exists (m + Z.to_nat (workerN scanners maxWorkers))%nat. split; [lia|].
      etrans; [exact Hrun|]. etrans; [apply tick_adds_workers; lia|].
      rewrite <- replicate_add.
      destruct (m + Z.to_nat (workerN scanners maxWorkers))%nat as [|m'] eqn:E;
        [lia|].
      by apply cycle_drains. }
  eexists. split.
  - eexists. split; [|exact Hrun]. unfold start.
    destruct (Z.ltb_spec (workerN scanners maxWorkers) 0); [lia|done].
  - simpl. by rewrite length_replicate.
Qed.

End PoolFacts.

(** C9: with two sources and [max_workers] 1 the pool should scan one
    source at a time, but every tick starts a worker more: after the
    second tick two sources are being scanned at once. *)
Theorem workers_pile_up :
  let a := Apple.apple in
  let b := Apple.orange in
  exists p,
    Pool.reachable [a; b] 1 p
    /\ Pool.active p = 2%nat
    /\ Z.min (Z.of_nat (length [a; b])) 1 < Z.of_nat (Pool.active p).
Proof.
  intros a b.
  exists {| Pool.workers := [Pool.Busy a; Pool.Busy b]; Pool.queue := [];
            Pool.at_ := Pool.PushScanners [a; b] |}.
  split; [|split; [reflexivity|vm_compute; reflexivity]].
  exists {| Pool.workers := []; Pool.queue := []; Pool.at_ := Pool.AwaitTick |}.
  split; [reflexivity|].
  (* the first tick: one worker, which takes the first scanner *)
  etrans; [apply (tick_adds_workers [a; b] 1 [] []); by vm_compute|].
  change ([] ++ replicate (Z.to_nat (Pool.workerN [a; b] 1)) Pool.Idle)
    with [Pool.Idle].
  eapply rtc_l; [apply Pool.step_push; by vm_compute|].
  eapply rtc_l; [apply (Pool.step_take [a; b] 1 [] [] a [])|].
  eapply rtc_l; [apply Pool.step_push; by vm_compute|].
  eapply rtc_l; [apply Pool.step_pushed|].
  (* the second tick: a second worker, which takes the second scanner *)
  etrans; [apply (tick_adds_workers [a; b] 1 [Pool.Busy a] [b]); by vm_compute|].
  change ([Pool.Busy a] ++ replicate (Z.to_nat (Pool.workerN [a; b] 1)) Pool.Idle)
    with ([Pool.Busy a] ++ Pool.Idle :: []).
  eapply rtc_l; [apply (Pool.step_take [a; b] 1 [Pool.Busy a] [] b [])|].
  apply rtc_refl.
Qed.

(** * More of the program *)

(** ** [createScanners] *)

Section CreateScanners.
Variable iguDir : string.

(** The scanners made so far stay in front of those made later. *)
Lemma createScanners_go_acc (services : list (string * cfgEntry)) :
  forall acc,
    createScanners_go iguDir services acc
    = match createScanners_go iguDir services [] with
      | inr made => inr (acc ++ made)
      | inl p => inl p
      end.
Proof.
  induction services as [|[n cfg] rest IH]; intros acc.
  - simpl. by rewrite app_nil_r.
  - cbn [createScanners_go].
    destruct (fieldString n cfg "location") as [|loc]; [done|].
    destruct (fieldString n cfg "repo_owner") as [|owner]; [done|].
    destruct (fieldString n cfg "repo_name") as [|repo]; [done|].
    rewrite (IH (acc ++ _)), (IH ([] ++ _)).
    destruct (createScanners_go iguDir rest []) as [p|made]; [done|].
    by rewrite <- app_assoc.
Qed.

Lemma createScanners_cons (n : string) (cfg : cfgEntry)
    (rest : list (string * cfgEntry)) :
  createScanners iguDir ((n, cfg) :: rest)
  = match fieldString n cfg "location" with
    | inl p => inl p
    | inr loc =>
        match fieldString n cfg "repo_owner" with
        | inl p => inl p
        | inr owner =>
            match fieldString n cfg "repo_name" with
            | inl p => inl p
            | inr repo =>
                match createScanners iguDir rest with
                | inl p => inl p
                | inr made =>
                    inr (newScanner iguDir
                           {| name := n; logFileLoc := loc;
                              repoOwner := owner; repoName := repo |} :: made)
                end
            end
        end
    end.
Proof.
  unfold createScanners. cbn [createScanners_go].
  destruct (fieldString n cfg "location") as [|loc]; [done|].
  destruct (fieldString n cfg "repo_owner") as [|owner]; [done|].
  destruct (fieldString n cfg "repo_name") as [|repo]; [done|].
  by rewrite createScanners_go_acc.
Qed.

Lemma fieldString_usable (service : string) (cfg : cfgEntry) :
  usable cfg <->
  exists loc owner repo,
    fieldString service cfg "location" = inr loc
    /\ fieldString service cfg "repo_owner" = inr owner
    /\ fieldString service cfg "repo_name" = inr repo.
Proof.
  split.
  - intros (m & loc & owner & repo & -> & Hl & Ho & Hr).
    exists loc, owner, repo. unfold fieldString. by rewrite Hl, Ho, Hr.
  - intros (loc & owner & repo & Hl & Ho & Hr).
    destruct cfg as [m|]; [|done]. unfold fieldString in *.
    exists m, loc, owner, repo. split; [done|].
    repeat (case_match; simplify_eq/=); done.
Qed.

End CreateScanners.

(** X1: [createScanners] returns scanners just when every service is a
    map with strings under [location], [repo_owner] and [repo_name];
    otherwise a type assertion panics. No other key, [mode] included, is
    looked at. *)
Theorem createScanners_returns_iff (iguDir : string)
    (services : list (string * cfgEntry)) :
  (exists scanners, createScanners iguDir services = inr scanners)
  <-> Forall (fun entry => usable entry.2) services.
Proof.
  induction services as [|[n cfg] rest IH].
  - split; [by constructor|]. intros _. by exists [].
  - rewrite createScanners_cons, Forall_cons, <- IH. simpl.
    rewrite (fieldString_usable n cfg). split.
    + intros [scanners H].
      destruct (fieldString n cfg "location") as [|loc]; [done|].
      destruct (fieldString n cfg "repo_owner") as [|owner]; [done|].
      destruct (fieldString n cfg "repo_name") as [|repo]; [done|].
      destruct (createScanners iguDir rest) as [|made]; [done|].
      split; [by exists loc, owner, repo|by exists made].
    + intros [(loc & owner & repo & -> & -> & ->) [made ->]]. by eexists.
Qed.

Section RecordPaths.

Lemma app_inj_r (t s s' : string) : s +:+ t = s' +:+ t -> s = s'.
Proof.
  revert s'. induction s as [|c s IH]; intros [|c' s'] H; [done| | |].
  - apply (f_equal String.length) in H.
    rewrite app_empty_l, app_cons in H. simpl in H. rewrite length_app' in H. lia.
  - apply (f_equal String.length) in H.
    rewrite app_empty_l, app_cons in H. simpl in H. rewrite length_app' in H. lia.
  - rewrite !app_cons in H. injection H as -> H. by rewrite (IH _ H).
Qed.

(** The path of the anchor record tells the service. *)
Lemma iguFilePath_inj (iguDir : string) (sv sv' : service) :
  iguFilePath (newScanner iguDir sv) = iguFilePath (newScanner iguDir sv') ->
  name sv = name sv'.
Proof.
  simpl. intros H.
  apply (inj (String.app iguDir)), (inj (String.app "/")) in H.
  by apply app_inj_r in H.
Qed.

Lemma createScanners_made (iguDir : string) (services : list (string * cfgEntry)) :
  forall scanners,
    createScanners iguDir services = inr scanners ->
    map (fun s => name (svc s)) scanners = services.*1
    /\ Forall (fun s => s = newScanner iguDir (svc s)) scanners.
Proof.
  induction services as [|[n cfg] rest IH]; intros scanners.
  - intros [= <-]. by split.
  - rewrite createScanners_cons. intros H.
    repeat (case_match; simplify_eq/=).
    destruct (IH _ eq_refl) as [Hnames Hall].
    split; [by rewrite Hnames|]. by constructor.
Qed.

End RecordPaths.

(** X2: when [createScanners] returns, there is one scanner for each
    service, in the order of the services and under its name, every
    anchor is 0, and the scanners of services with different names have
    different anchor records. *)
Theorem createScanners_records_differ (iguDir : string)
    (services : list (string * cfgEntry)) (scanners : list scanner) :
  createScanners iguDir services = inr scanners ->
  NoDup services.*1 ->
  map (fun s => name (svc s)) scanners = services.*1
  /\ Forall (fun s => anchor s = 0) scanners
  /\ NoDup (map iguFilePath scanners).
Proof.
  intros Hmade Hnames.
  destruct (createScanners_made _ _ _ Hmade) as [Hmap Hall].
  split; [done|]. split.
  - eapply Forall_impl; [exact Hall|]. by intros s ->.
  - rewrite <- Hmap in Hnames. clear Hmap Hmade.
    induction scanners as [|s rest IH]; [constructor|].
    apply Forall_cons in Hall as [Hs Hall].
    apply NoDup_cons in Hnames as [Hnew Hrest].
    cbn [map]. apply NoDup_cons. split; [|by apply IH].
    intros Hin. apply Hnew.
    apply list_elem_of_fmap in Hin as (s' & Heq & Hin').
    apply list_elem_of_fmap. exists s'. split; [|done].
    rewrite Forall_forall in Hall. rewrite Hs, (Hall s' Hin') in Heq.
    by apply iguFilePath_inj in Heq.
Qed.

Lemma createScanners_records_differ_witness :
  let entry (loc : string) :=
    EntryMap (<["location" := FieldString loc]>
              (<["repo_owner" := FieldString "owner"]>
               (<["repo_name" := FieldString "osprey"]>
                (<["mode" := FieldString "local"]> ∅)))) in
  let services := [("apple", entry "/tmp/log/apple.log");
                   ("orange", entry "/tmp/log/orange.log")] in
  map (fun s => name (svc s)) [Apple.apple; Apple.orange] = services.*1
  /\ Forall (fun s => anchor s = 0) [Apple.apple; Apple.orange]
  /\ NoDup (map iguFilePath [Apple.apple; Apple.orange]).
Proof.
  intros entry services.
  apply (createScanners_records_differ "/tmp/igu" services).
  - vm_compute. reflexivity.
  - apply NoDup_cons. split; [|apply NoDup_singleton].
    intros Hin. apply list_elem_of_singleton in Hin. discriminate Hin.
Defined.

(** ** [extract] and the first line of the record *)

(** X3: a line without a colon makes [extract] panic: the split has one
    element only, and the guard before [tks[1]] asks for none. *)
Theorem extract_without_colon_panics (line : string) :
  hasByte ":"%char line = false ->
  extract line = Panicked (IndexOutOfRange 1 1).
Proof.
  intros H. unfold extract. by rewrite (Split_whole _ _ H).
Qed.

Lemma extract_without_colon_panics_witness :
  extract "last 5" = Panicked (IndexOutOfRange 1 1).
Proof.
  apply (extract_without_colon_panics "last 5"). reflexivity.
Defined.

(** X4: [extract] returns the number between the first colon and the
    second, if there is one: the key in front of it is not looked at,
    and neither is what follows a second colon. *)
Theorem extract_reads_second_field (key more : string) (n : Z) :
  hasByte ":"%char key = false ->
  minInt <= n <= maxInt ->
  extract (key +:+ ":" +:+ itoa n) = Val (n, None)
  /\ extract (key +:+ ":" +:+ itoa n +:+ ":" +:+ more) = Val (n, None).
Proof.
  intros Hkey Hn.
  assert (hasByte ":"%char (itoa n) = false) as Hnum by (by apply itoa_hasByte).
  split; unfold extract.
  - change (key +:+ ":" +:+ itoa n) with (key +:+ String ":" (itoa n)).
    rewrite (Split_app _ _ _ Hkey), (Split_whole _ _ Hnum).
    simpl. by rewrite Atoi_itoa.
  - change (key +:+ ":" +:+ itoa n +:+ ":" +:+ more)
      with (key +:+ String ":" (itoa n +:+ String ":" more)).
    rewrite (Split_app _ _ _ Hkey), (Split_app _ _ _ Hnum).
    pose proof (Split_not_nil ":"%char more) as Hne.
    destruct (Split more ":") as [|t ts]; [done|].
    simpl. by rewrite Atoi_itoa.
Qed.

Lemma extract_reads_second_field_witness :
  extract ("anchor" +:+ ":" +:+ itoa 42) = Val (42, None)
  /\ extract ("anchor" +:+ ":" +:+ itoa 42 +:+ ":" +:+ "x:y") = Val (42, None).
Proof.
  apply (extract_reads_second_field "anchor" "x:y" 42).
  - reflexivity.
  - vm_compute. split; discriminate.
Defined.

Section FirstLine.

Lemma rawLines_app (l rest : string) :
  hasByte LF l = false -> rawLines (l +:+ String LF rest) = l :: rawLines rest.
Proof.
  induction l as [|c l IH]; intros Hl.
  - by rewrite app_empty_l.
  - cbn [hasByte] in Hl. apply orb_false_elim in Hl as [Hc Hl].
    rewrite app_cons. simpl. by rewrite Hc, (IH Hl).
Qed.

End FirstLine.

(** X5: of an anchor record only the first line counts: whatever the
    load meets, its result is the same for two records that agree up
    to their first newline. *)
Theorem getAnchor_reads_first_line (env : environment) (s : scanner)
    (w w' : world) (l rest rest' : string) :
  hasByte LF l = false ->
  files w !! iguFilePath s = Some (l +:+ nl +:+ rest) ->
  files w' !! iguFilePath s = Some (l +:+ nl +:+ rest') ->
  (getAnchor env s w).1 = (getAnchor env s w').1.
Proof.
  change (l +:+ nl +:+ rest) with (l +:+ String LF rest).
  change (l +:+ nl +:+ rest') with (l +:+ String LF rest').
  intros Hl Hw Hw'. unfold getAnchor, os_Stat, os_Open. run.
  rewrite Hw, Hw'.
  assert (bool_decide ((if statFails env then Some false else None) = Some true)
          = false) as ->.
  { apply bool_decide_eq_false. by destruct (statFails env). }
  simpl. rewrite Hw, Hw'. unfold scanAll.
  destruct (openFails env); [done|]. rewrite !rawLines_app by done.
  cbn [tokensOf].
  destruct (MaxScanTokenSize <=? Z.of_nat (String.length l)); [done|].
  destruct (tokensOf (rawLines rest)) as [ts e].
  destruct (tokensOf (rawLines rest')) as [ts' e']. simpl.
  repeat (case_match; simplify_eq/=); done.
Qed.

Lemma getAnchor_reads_first_line_witness :
  (getAnchor calm Apple.apple
     (Apple.known ("last:3" +:+ nl +:+ "last:9" +:+ nl) "")).1
  = (getAnchor calm Apple.apple (Apple.known ("last:3" +:+ nl +:+ "") "")).1.
Proof.
  apply (getAnchor_reads_first_line calm Apple.apple _ _ "last:3"
           ("last:9" +:+ nl) "").
  - reflexivity.
  - reflexivity.
  - reflexivity.
Defined.

(** ** How far a scan goes *)

Section Tokens.

Lemma tokensOf_length (ls : list string) :
  (length (tokensOf ls).1 <= length ls)%nat.
Proof.
  induction ls as [|l ls IH]; simpl; [lia|].
  destruct (MaxScanTokenSize <=? Z.of_nat (String.length l)); simpl; [lia|].
  destruct (tokensOf ls) as [ts e]. simpl in *. lia.
Qed.

(** A scanner that ends without an error has met short lines only and
    has delivered them all. *)
Lemma tokensOf_done (ls ts : list string) :
  tokensOf ls = (ts, None) -> Forall short ls /\ ts = map dropCR ls.
Proof.
  revert ts. induction ls as [|l ls IH]; intros ts; simpl.
  - by intros [= <-].
  - destruct (Z.leb_spec MaxScanTokenSize (Z.of_nat (String.length l)));
      [done|].
    destruct (tokensOf ls) as [ts' e]. intros [= <- ->].
    destruct (IH _ eq_refl) as [Hsh ->]. split; [by constructor|done].
Qed.

Lemma consumed_short (ls : list string) :
  Forall short (consumed ls) -> Forall short ls.
Proof.
  induction ls as [|l [|l' ls] IH]; [done| |].
  - simpl. case_bool_decide; [subst|done]. intros _. by repeat constructor.
  - rewrite consumed_cons by done. intros [Hl Hls]%Forall_cons.
    constructor; [done|by apply IH].
Qed.

(** Past the lines the scanner has taken there is nothing, or one empty
    element. *)
Lemma consumed_rest (ls : list string) :
  drop (length (consumed ls)) ls = [] \/ drop (length (consumed ls)) ls = [""].
Proof.
  induction ls as [|l [|l' ls] IH]; [by left| |].
  - simpl. case_bool_decide; subst; [by right|by left].
  - rewrite consumed_cons by done. exact IH.
Qed.

Lemma issuesOf_length (env : environment) (serviceName : string)
    (tokens : list string) :
  forall k, (length (issuesOf env serviceName k tokens) <= length tokens)%nat.
Proof.
  induction tokens as [|t ts IH]; intros k; simpl; [lia|].
  rewrite length_app. specialize (IH (S k)). destruct (marked t); simpl; lia.
Qed.

(** The split of a text that has grown is no shorter. *)
Lemma Split_app_length (sep : ascii) (s t : string) :
  (length (Split s sep) <= length (Split (s +:+ t) sep))%nat.
Proof.
  induction s as [|c s IH].
  - rewrite app_empty_l. simpl. pose proof (Split_not_nil sep t).
    destruct (Split t sep); simpl; [done|lia].
  - rewrite app_cons. simpl. destruct (Ascii.eqb c sep); simpl; [lia|].
    pose proof (Split_not_nil sep s). pose proof (Split_not_nil sep (s +:+ t)).
    destruct (Split s sep), (Split (s +:+ t) sep); simpl in *; done || lia.
Qed.

End Tokens.

Section ScanFileShape.
Variable env : environment.

(** [scanFile] on a log that can be read, with the anchor within the
    split. *)
Lemma scanFile_read (s : scanner) (w : world) (dat : string) :
  readFileFails env = false ->
  files w !! logFileLoc (svc s) = Some dat ->
  0 <= anchor s <= Z.of_nat (length (Split dat LF)) ->
  Z.of_nat (length (Split dat LF)) <= maxInt ->
  let lines := consumed (drop (Z.to_nat (anchor s)) (Split dat LF)) in
  let tokens := (tokensOf lines).1 in
  scanFile env s w
  = (Val (anchor s + Z.of_nat (length tokens),
          issuesOf env (name (svc s)) 0 tokens,
          ErrScanner <$> (tokensOf lines).2),
     after w (files w) [CallReadFile (logFileLoc (svc s))]).
Proof.
  intros Hread Hdat Ha Hlen lines tokens.
  unfold scanFile, ioutil_ReadFile, sliceFrom. run.
  rewrite Hread, Hdat.
  destruct (Z.ltb_spec (anchor s) 0) as [?|_]; [lia|].
  destruct (Z.ltb_spec (Z.of_nat (length (Split dat LF))) (anchor s)) as [?|_]; [lia|].
  simpl. unfold scanAll.
  rewrite rawLines_Join by (apply Forall_drop, Split_hasByte).
  fold lines.
  pose proof (tokensOf_length lines) as Htok.
  pose proof (consumed_length (drop (Z.to_nat (anchor s)) (Split dat LF))) as Hc.
  fold lines in Hc. rewrite length_drop in Hc. fold tokens in Htok.
  destruct (tokensOf lines) as [ts e] eqn:E. simpl in tokens. subst tokens.
  rewrite scanLoop_issuesOf by (unfold minInt, maxInt in *; lia).
  simpl. rewrite wrapInt_id by (unfold minInt, maxInt in *; lia).
  by destruct e.
Qed.

(** A [scanFile] that returns had its anchor within the split. *)
Lemma scanFile_returns (s : scanner) (w w' : world) (dat : string) r :
  readFileFails env = false ->
  files w !! logFileLoc (svc s) = Some dat ->
  scanFile env s w = (Val r, w') ->
  0 <= anchor s <= Z.of_nat (length (Split dat LF)).
Proof.
  intros Hread Hdat. unfold scanFile, ioutil_ReadFile, sliceFrom. run.
  rewrite Hread, Hdat.
  destruct (Z.ltb_spec (anchor s) 0);
    destruct (Z.ltb_spec (Z.of_nat (length (Split dat LF))) (anchor s));
    simpl; first [done | intros _; lia].
Qed.

End ScanFileShape.

(** X6: when [scanFile] returns for a log it could read, with or without
    a scanner error, the new anchor is not below the old one and not
    beyond the elements of the split, and there are no more findings
    than lines the anchor has moved over. *)
Theorem scanFile_advance_bounds (env : environment) (s : scanner)
    (w w' : world) (dat : string) (n : Z) (issues : list IssueRequest)
    (e : option error) :
  readFileFails env = false ->
  files w !! logFileLoc (svc s) = Some dat ->
  Z.of_nat (length (Split dat LF)) <= maxInt ->
  scanFile env s w = (Val (n, issues, e), w') ->
  anchor s <= n <= Z.of_nat (length (Split dat LF))
  /\ Z.of_nat (length issues) <= n - anchor s.
Proof.
  intros Hread Hdat Hlen Hrun.
  pose proof (scanFile_returns _ _ _ _ _ _ Hread Hdat Hrun) as Ha.
  rewrite (scanFile_read env s w dat) in Hrun by done.
  injection Hrun as <- <- _ _.
  pose proof (tokensOf_length
                (consumed (drop (Z.to_nat (anchor s)) (Split dat LF)))) as Htok.
  pose proof (consumed_length (drop (Z.to_nat (anchor s)) (Split dat LF))) as Hc.
  rewrite length_drop in Hc.
  pose proof (issuesOf_length env (name (svc s))
                (tokensOf (consumed (drop (Z.to_nat (anchor s)) (Split dat LF)))).1
                0) as Hiss.
  lia.
Qed.

Lemma scanFile_advance_bounds_witness :
  let dat := "ok" +:+ nl +:+ "an error" +:+ nl +:+ "error x" in
  let s := withAnchor Apple.apple 1 in
  anchor s <= 3 <= Z.of_nat (length (Split dat LF))
  /\ Z.of_nat (length (issuesOf calm "apple" 0 ["an error"; "error x"]))
     <= 3 - anchor s.
Proof.
  intros dat s.
  apply (scanFile_advance_bounds calm s (Apple.fresh dat)
           (scanFile calm s (Apple.fresh dat)).2 dat 3
           (issuesOf calm "apple" 0 ["an error"; "error x"]) None).
  - reflexivity.
  - reflexivity.
  - vm_compute. discriminate.
  - vm_compute. reflexivity.
Defined.

(** ** One scan after another *)

Section NextScan.
Variable env : environment.

(** From a record that a load can read, a load under any surroundings
    fails with an error or loads that anchor; it does not panic. *)
Lemma getAnchor_from_loaded (s : scanner) (w w' : world) (a : Z) r :
  anchor s = 0 ->
  loadedAnchor (files w) s = Some a ->
  getAnchor env s w = (r, w') ->
  (exists e, r = Val (s, Some e)) \/ r = Val (withAnchor s a, None).
Proof.
  intros Hs. destruct s as [sv p a0]. simpl in Hs. subst a0.
  unfold loadedAnchor, getAnchor, os_Stat, os_Create, os_Open. run.
  intros Hl H.
  destruct (statFails env), (files w !! p) eqn:Hf; simpl in H, Hl.
  all: rewrite ?lookup_insert_eq in H, Hl; simpl in H, Hl.
  all: repeat (case_match; simplify_eq/=); clash; eauto.
Qed.

(** The same when the record is there and can be opened: the load
    returns that anchor and changes no file. *)
Lemma getAnchor_present (s : scanner) (w : world) (a : Z) (data : string) :
  anchor s = 0 ->
  openFails env = false ->
  files w !! iguFilePath s = Some data ->
  loadedAnchor (files w) s = Some a ->
  exists w', getAnchor env s w = (Val (withAnchor s a, None), w')
             /\ files w' = files w.
Proof.
  intros Hs Hopen Hdata. destruct s as [sv p a0]. simpl in Hs, Hdata. subst a0.
  unfold loadedAnchor, getAnchor, os_Stat, os_Create, os_Open. run.
  rewrite Hdata, Hopen. intros Hl.
  destruct (statFails env); simpl in *; rewrite ?Hdata in *; simpl in *.
  all: repeat (case_match; simplify_eq/=); clash; eauto.
Qed.

(** A load that succeeds leaves a record behind. *)
Lemma getAnchor_leaves_record (s s1 : scanner) (w w1 : world) :
  getAnchor env s w = (Val (s1, None), w1) ->
  is_Some (files w1 !! iguFilePath s).
Proof.
  unfold getAnchor, os_Stat, os_Create, os_Open. run. intros H.
  destruct (statFails env), (files w !! iguFilePath s) eqn:Hf; simpl in H.
  all: rewrite ?lookup_insert_eq in H; simpl in H.
  all: repeat (case_match; simplify_eq/=); rewrite ?lookup_insert_eq; eauto.
Qed.

Lemma setAnchor_returns (s : scanner) (n : Z) (w : world) :
  exists e, (setAnchor env s n w).1 = Val e.
Proof.
  unfold setAnchor, os_OpenFile_trunc, File_WriteString. run.
  repeat (case_match; simplify_eq/=); eauto.
Qed.

(** What a scan that succeeds has done. *)
Lemma scan_succeeded (s s1 : scanner) (w w1 : world) (issues : list IssueRequest) :
  scan env s w = (Val (s1, issues, None), w1) ->
  exists wg n w2,
    getAnchor env s w = (Val (s1, None), wg)
    /\ scanFile env s1 wg = (Val (n, issues, None), w2)
    /\ ((anchor s1 < n /\ files w1 = <[iguFilePath s := record n]> (files wg))
        \/ (n <= anchor s1 /\ files w1 = files wg)).
Proof.
  intros Hscan.
  destruct (scan_outcomes _ _ _ _ _ Hscan)
    as [_|(s2 & wg & n & iss & w2 & Hg & Hf & Hlt & Hend)].
  - revert Hscan. unfold scan. run.
    destruct (getAnchor env s w) as [[[s0 [e|]]|p] wg] eqn:Hg; simpl; try done.
    destruct (scanFile env s0 wg) as [[[[n iss] [e|]]|p] w2] eqn:Hs;
      simpl; try done.
    pose proof (scanFile_files _ _ _ _ _ Hs) as Hw2.
    destruct (Z.ltb_spec (anchor s0) n) as [Hlt|Hge].
    + destruct (setAnchor env s0 n w2) as [[[e|]|p] w3] eqn:Hset; simpl;
        try done.
      intros [= <- <- <-].
      pose proof (getAnchor_scanner _ _ _ _ _ _ Hg) as Hs0.
      assert (iguFilePath s0 = iguFilePath s) as Higu by (by rewrite Hs0).
      exists wg, n, w2. do 2 (split; [done|]). left. split; [done|].
      revert Hset. unfold setAnchor, os_OpenFile_trunc, File_WriteString. run.
      intros Hset. repeat (case_match; simplify_eq/=).
      by rewrite insert_insert_eq, Higu, Hw2.
    + intros [= <- <- <-]. exists wg, n, w2.
      do 2 (split; [done|]). right. by rewrite Hw2.
  - destruct Hend as [(_ & [= <- <-] & Hw1)|(k & _ & [=] & _)].
    exists wg, n, w2. do 2 (split; [done|]). by left.
Qed.

End NextScan.

Section AfterScan.
Variable env : environment.

(** After a scan that succeeds a load sees the anchor the scan has come
    to, the record is there, and the log is as it was. *)
Lemma scan_leaves_anchor (s s1 : scanner) (w w1 : world) (dat : string)
    (issues : list IssueRequest) :
  anchor s = 0 ->
  iguFilePath s <> logFileLoc (svc s) ->
  readFileFails env = false ->
  files w !! logFileLoc (svc s) = Some dat ->
  Z.of_nat (length (Split dat LF)) <= maxInt ->
  scan env s w = (Val (s1, issues, None), w1) ->
  exists n,
    loadedAnchor (files w1) s = Some n
    /\ is_Some (files w1 !! iguFilePath s)
    /\ files w1 !! logFileLoc (svc s) = Some dat
    /\ 0 <= n <= Z.of_nat (length (Split dat LF))
    /\ consumed (drop (Z.to_nat n) (Split dat LF)) = []
    /\ Forall short (drop (Z.to_nat n) (Split dat LF)).
Proof.
  intros Hs Hne Hread Hdat Hlen Hscan.
  destruct (scan_succeeded _ _ _ _ _ _ Hscan) as (wg & n & w2 & Hg & Hf & Hend).
  pose proof (getAnchor_scanner _ _ _ _ _ _ Hg) as Hs1.
  assert (svc s1 = svc s) as Hsvc by (by rewrite Hs1).
  assert (files wg !! logFileLoc (svc s) = Some dat) as Hdatg.
  { destruct (getAnchor_files _ _ _ _ _ Hg) as [->|[_ ->]]; [done|].
    by rewrite lookup_insert_ne. }
  assert (files wg !! logFileLoc (svc s1) = Some dat) as Hdat1 by (by rewrite Hsvc).
  pose proof (scanFile_returns _ _ _ _ _ _ Hread Hdat1 Hf) as Ha.
  pose proof Hf as Hf'.
  rewrite (scanFile_read env s1 wg dat) in Hf' by done.
  injection Hf' as Hn _ Herr.
  set (lines := consumed (drop (Z.to_nat (anchor s1)) (Split dat LF))) in *.
  destruct (tokensOf lines) as [ts e] eqn:Htok. simpl in Hn, Herr.
  destruct e; [done|]. destruct (tokensOf_done _ _ Htok) as [Hshort ->].
  rewrite length_map in Hn.
  pose proof (consumed_length (drop (Z.to_nat (anchor s1)) (Split dat LF))) as Hc.
  fold lines in Hc. rewrite length_drop in Hc.
  assert (drop (Z.to_nat n) (Split dat LF)
          = drop (length lines) (drop (Z.to_nat (anchor s1)) (Split dat LF)))
    as Hdrop.
  { rewrite drop_drop. f_equal. lia. }
  exists n. split; [|split; [|split; [|split; [lia|split]]]].
  - destruct Hend as [[Hlt ->]|[Hle ->]].
    + apply loadedAnchor_record; [by rewrite lookup_insert_eq|].
      by eapply scanFile_range.
    + replace n with (anchor s1) by lia. by eapply getAnchor_loaded.
  - destruct Hend as [[_ ->]|[_ ->]]; [by rewrite lookup_insert_eq|].
    by eapply getAnchor_leaves_record.
  - destruct Hend as [[_ ->]|[_ ->]]; [by rewrite lookup_insert_ne|done].
  - rewrite Hdrop.
    pose proof (consumed_rest (drop (Z.to_nat (anchor s1)) (Split dat LF)))
      as Hrest.
    fold lines in Hrest. by destruct Hrest as [->| ->].
  - rewrite Hdrop.
    pose proof (consumed_rest (drop (Z.to_nat (anchor s1)) (Split dat LF)))
      as Hrest.
    fold lines in Hrest. destruct Hrest as [->| ->]; by repeat constructor.
Qed.

End AfterScan.

(** X7: on a log that only grows, the scan after a scan that succeeded
    does not panic, whatever fails around it: the anchor the first scan
    has left is within the split of the longer log. *)
Theorem grown_log_scan_returns (env1 env2 : environment) (s s1 : scanner)
    (w w1 : world) (dat more : string) (issues : list IssueRequest) :
  anchor s = 0 ->
  iguFilePath s <> logFileLoc (svc s) ->
  readFileFails env1 = false ->
  files w !! logFileLoc (svc s) = Some dat ->
  Z.of_nat (length (Split (dat +:+ more) LF)) <= maxInt ->
  scan env1 s w = (Val (s1, issues, None), w1) ->
  exists r, (scan env2 s (setLog s (dat +:+ more) w1)).1 = Val r.
Proof.
  intros Hs Hne Hread Hdat Hlen Hscan.
  pose proof (Split_app_length LF dat more) as Hgrow.
  destruct (scan_leaves_anchor env1 s s1 w w1 dat issues)
    as (n & Hl & _ & _ & Hn & _); [done..|lia|done|].
  set (w' := setLog s (dat +:+ more) w1).
  assert (loadedAnchor (files w') s = Some n) as Hl'.
  { rewrite <- Hl. apply loadedAnchor_ext. simpl. by rewrite lookup_insert_ne. }
  unfold scan. run.
  destruct (getAnchor env2 s w') as [r wg] eqn:Hg.
  destruct (getAnchor_from_loaded env2 s w' wg n r Hs Hl' Hg) as [[e ->]| ->];
    simpl; [by eexists|].
  assert (files wg !! logFileLoc (svc s) = Some (dat +:+ more)) as Hdatg.
  { destruct (getAnchor_files _ _ _ _ _ Hg) as [->|[_ ->]];
      [|rewrite lookup_insert_ne by done]; simpl; by rewrite lookup_insert_eq. }
  destruct (readFileFails env2) eqn:Hread2.
  - unfold scanFile, ioutil_ReadFile. run. rewrite Hread2. simpl. by eexists.
  - rewrite (scanFile_read env2 (withAnchor s n) wg (dat +:+ more));
      [|done|done|simpl; lia|done].
    simpl.
    destruct (tokensOf _) as [ts [e|]]; simpl; [by eexists|].
    case_match; [|by eexists].
    match goal with
    | |- context [setAnchor env2 ?s0 ?n0 ?w0] =>
        destruct (setAnchor_returns env2 s0 n0 w0) as [e He];
        destruct (setAnchor env2 s0 n0 w0) as [r0 w3]
    end.
    simpl in He. subst r0. destruct e; by eexists.
Qed.

Lemma grown_log_scan_returns_witness :
  let w := Apple.fresh (logText ["a"; "b"]) in
  exists r,
    (scan (cutAt 0) Apple.apple
       (setLog Apple.apple (logText ["a"; "b"] +:+ "c")
          (scan calm Apple.apple w).2)).1 = Val r.
Proof.
  intros w.
  apply (grown_log_scan_returns calm (cutAt 0) Apple.apple Apple.apple w
           (scan calm Apple.apple w).2 (logText ["a"; "b"]) "c" []).
  - reflexivity.
  - discriminate.
  - reflexivity.
  - reflexivity.
  - vm_compute. discriminate.
  - vm_compute. reflexivity.
Defined.

(** X8: a scan that follows a scan that succeeded, on the same log and
    with the files working, yields no finding and changes no file. *)
Theorem second_scan_finds_nothing (env1 env2 : environment) (s s1 : scanner)
    (w w1 : world) (dat : string) (issues : list IssueRequest) :
  anchor s = 0 ->
  iguFilePath s <> logFileLoc (svc s) ->
  readFileFails env1 = false ->
  filesWork env2 ->
  files w !! logFileLoc (svc s) = Some dat ->
  Z.of_nat (length (Split dat LF)) <= maxInt ->
  scan env1 s w = (Val (s1, issues, None), w1) ->
  exists s2 w2,
    scan env2 s w1 = (Val (s2, [], None), w2) /\ files w2 = files w1.
Proof.
  intros Hs Hne Hread (_ & _ & Hop2 & Hof2 & Hwr2 & Hrd2) Hdat Hlen Hscan.
  destruct (scan_leaves_anchor env1 s s1 w w1 dat issues)
    as (n & Hl & [data Hrec] & Hdat1 & Hn & Hnone & Hshort); [done..|].
  destruct (getAnchor_present env2 s w1 n data Hs Hop2 Hrec Hl)
    as (wg & Hg & Hwg).
  destruct (scan_lines env2 s _ w1 wg dat Hg)
    as (w2 & Hscan2 & Hfiles2); [done..|by rewrite Hwg|done|done|done|].
  simpl in Hscan2, Hfiles2. rewrite Hnone in Hscan2, Hfiles2.
  simpl in Hscan2, Hfiles2.
  exists (withAnchor s n), w2. split; [done|].
  rewrite Hfiles2, Hwg.
  destruct (Z.ltb_spec n (n + Z.of_nat 0)); [lia|done].
Qed.

Lemma second_scan_finds_nothing_witness :
  let w := Apple.fresh ("ok" +:+ nl +:+ "error x") in
  exists s2 w2,
    scan calm Apple.apple (scan calm Apple.apple w).2 = (Val (s2, [], None), w2)
    /\ files w2 = files (scan calm Apple.apple w).2.
Proof.
  intros w.
  apply (second_scan_finds_nothing calm calm Apple.apple Apple.apple w
           (scan calm Apple.apple w).2 ("ok" +:+ nl +:+ "error x")
           [ {| Title := "apple-bug-"; Body := "error x" |} ]).
  - reflexivity.
  - discriminate.
  - reflexivity.
  - repeat split.
  - reflexivity.
  - vm_compute. discriminate.
  - vm_compute. reflexivity.
Defined.

(** ** What a job touches *)

Section JobFiles.
Variable env : environment.

Lemma Execute_scan (s : scanner) (w : world) :
  (Execute env s w).1
  = match (scan env s w).1 with
    | Val (s1, _, e) => Val (s1, e)
    | Panicked p => Panicked p
    end
  /\ files (Execute env s w).2 = files (scan env s w).2.
Proof.
  unfold Execute, log_Printf. run.
  destruct (scan env s w) as [[[[s1 iss] [e|]]|p] w0]; simpl; [done| |done].
  destruct iss as [|req rest]; simpl; [done|].
  match goal with
  | |- context [submitAll env s1 0 (req :: rest) ?w1] =>
      destruct (submitAll_trace env s1 (req :: rest) 0 w1) as (evs & -> & _)
  end.
  done.
Qed.

Lemma job_Execute (s : scanner) (w : world) :
  files (job env s w).2 = files (Execute env s w).2.
Proof.
  unfold job, log_Printf. run.
  by destruct (Execute env s w) as [[[s1 [e|]]|p] w0].
Qed.

(** A scan writes no file but the anchor record. *)
Lemma scan_frame (s : scanner) (w : world) (path : string) :
  path <> iguFilePath s ->
  files (scan env s w).2 !! path = files w !! path.
Proof.
  intros Hne. destruct (scan env s w) as [r w'] eqn:Hscan. simpl.
  destruct (scan_outcomes _ _ _ _ _ Hscan)
    as [[Hfiles _]|(s1 & w1 & n & issues & w2 & Hg & _ & _ & Hend)].
  - destruct Hfiles as [->|[_ ->]]; [done|]. by rewrite lookup_insert_ne.
  - assert (files w1 !! path = files w !! path) as <-.
    { destruct (getAnchor_files _ _ _ _ _ Hg) as [->|[_ ->]]; [done|].
      by rewrite lookup_insert_ne. }
    destruct Hend as [(_ & _ & ->)|(k & _ & _ & ->)];
      by rewrite lookup_insert_ne.
Qed.

End JobFiles.

(** X9: the job of a source writes no file but the anchor record of that
    source, however it ends: the log and every other file are as they
    were. *)
Theorem job_writes_own_record_only (env : environment) (s : scanner)
    (w : world) (path : string) :
  path <> iguFilePath s ->
  files (job env s w).2 !! path = files w !! path.
Proof.
  intros Hne. rewrite job_Execute.
  destruct (Execute_scan env s w) as [_ ->]. by apply scan_frame.
Qed.

Lemma job_writes_own_record_only_witness :
  files (job calm Apple.apple (Apple.fresh (logText ["an error"]))).2 !! Apple.log
  = files (Apple.fresh (logText ["an error"])) !! Apple.log.
Proof.
  apply (job_writes_own_record_only calm Apple.apple
           (Apple.fresh (logText ["an error"])) Apple.log).
  discriminate.
Defined.

(** X10: [Execute] returns the scanner and the error of [scan] and
    leaves the files as [scan] has left them: a submission that fails is
    logged, but it is not returned and it takes nothing back. *)
Theorem Execute_returns_scan_error (env : environment) (s : scanner) (w : world) :
  (Execute env s w).1
  = match (scan env s w).1 with
    | Val (s1, _, e) => Val (s1, e)
    | Panicked p => Panicked p
    end
  /\ files (Execute env s w).2 = files (scan env s w).2
  /\ forall (fails : nat -> bool),
       let env' :=
         {| statFails := statFails env; createFails := createFails env;
            openFails := openFails env; openFileFails := openFileFails env;
            writeShort := writeShort env; readFileFails := readFileFails env;
            issueFails := fails; now := now env |} in
       (Execute env' s w).1 = (Execute env s w).1
       /\ files (Execute env' s w).2 = files (Execute env s w).2.
Proof.
  destruct (Execute_scan env s w) as [Hres Hfiles].
  split; [done|]. split; [done|]. intros fails env'.
  destruct (Execute_scan env' s w) as [Hres' Hfiles'].
  rewrite Hres, Hres', Hfiles, Hfiles'.
  assert (scan env' s w = scan env s w) as ->; [|done].
  reflexivity.
Qed.

(** ** One source after another *)

Section Local.
Variable env : environment.

(** A load looks at the anchor record only. *)
Lemma getAnchor_local (s : scanner) (w w' : world) :
  files w !! iguFilePath s = files w' !! iguFilePath s ->
  (getAnchor env s w).1 = (getAnchor env s w').1
  /\ files (getAnchor env s w).2 !! iguFilePath s
     = files (getAnchor env s w').2 !! iguFilePath s.
Proof.
  intros H. unfold getAnchor, os_Stat, os_Create, os_Open. run.
  rewrite <- H.
  destruct (statFails env), (files w !! iguFilePath s) eqn:Hf; simpl;
    rewrite ?Hf, <- ?H, ?lookup_insert_eq; simpl;
    repeat (case_match; simplify_eq/=);
    repeat match goal with
           | H0 : <[_:=_]> _ !! _ = _ |- _ =>
               rewrite lookup_insert_eq in H0; simplify_eq/=
           end;
    rewrite ?lookup_insert_eq; clash; split; congruence.
Qed.

(** [scanFile] looks at the log only. *)
Lemma scanFile_local (s : scanner) (w w' : world) :
  files w !! logFileLoc (svc s) = files w' !! logFileLoc (svc s) ->
  (scanFile env s w).1 = (scanFile env s w').1.
Proof.
  intros H. unfold scanFile, ioutil_ReadFile, sliceFrom. run.
  rewrite <- H. repeat (case_match; simplify_eq/=); done.
Qed.

(** A store does not look at the files. *)
Lemma setAnchor_local (s : scanner) (n : Z) (w w' : world) :
  files w !! iguFilePath s = files w' !! iguFilePath s ->
  (setAnchor env s n w).1 = (setAnchor env s n w').1
  /\ files (setAnchor env s n w).2 !! iguFilePath s
     = files (setAnchor env s n w').2 !! iguFilePath s.
Proof.
  intros H. unfold setAnchor, os_OpenFile_trunc, File_WriteString. run.
  repeat (case_match; simplify_eq/=); rewrite ?lookup_insert_eq; done.
Qed.

(** What a scan returns, and the record it leaves, depend on the record
    and on the log it finds, and on no other file. *)
Lemma scan_local (s : scanner) (w w' : world) :
  files w !! iguFilePath s = files w' !! iguFilePath s ->
  files w !! logFileLoc (svc s) = files w' !! logFileLoc (svc s) ->
  (scan env s w).1 = (scan env s w').1
  /\ files (scan env s w).2 !! iguFilePath s
     = files (scan env s w').2 !! iguFilePath s.
Proof.
  intros Higu Hlog.
  destruct (getAnchor_local s w w' Higu) as [Hres Hrec].
  unfold scan. run.
  destruct (getAnchor env s w) as [r wg] eqn:Hg.
  destruct (getAnchor env s w') as [r' wg'] eqn:Hg'.
  simpl in Hres, Hrec. subst r'.
  assert (files wg !! logFileLoc (svc s) = files wg' !! logFileLoc (svc s))
    as Hlogg.
  { destruct (decide (logFileLoc (svc s) = iguFilePath s)) as [->|Hne];
      [done|].
    destruct (getAnchor_files _ _ _ _ _ Hg) as [->|[_ ->]],
             (getAnchor_files _ _ _ _ _ Hg') as [->|[_ ->]];
      rewrite ?lookup_insert_ne by done; done. }
  destruct r as [[s1 [e|]]|p]; simpl; [done| |done].
  pose proof (getAnchor_scanner _ _ _ _ _ _ Hg) as Hs1.
  assert (svc s1 = svc s) as Hsvc by (by rewrite Hs1).
  assert (iguFilePath s1 = iguFilePath s) as Hp by (by rewrite Hs1).
  pose proof (scanFile_local s1 wg wg' ltac:(by rewrite Hsvc)) as Hsf.
  destruct (scanFile env s1 wg) as [rf w2] eqn:Hs.
  destruct (scanFile env s1 wg') as [rf' w2'] eqn:Hs'.
  simpl in Hsf. subst rf'.
  pose proof (scanFile_files _ _ _ _ _ Hs) as Hw2.
  pose proof (scanFile_files _ _ _ _ _ Hs') as Hw2'.
  destruct rf as [[[n issues] [e|]]|p]; simpl; rewrite ?Hw2, ?Hw2'; [done| |done].
  destruct (anchor s1 <? n); simpl; rewrite ?Hw2, ?Hw2'; [|done].
  destruct (setAnchor_local s1 n w2 w2') as [Hset Hsetrec];
    [by rewrite Hw2, Hw2', Hp|].
  destruct (setAnchor env s1 n w2) as [rs w3].
  destruct (setAnchor env s1 n w2') as [rs' w3'].
  simpl in Hset, Hsetrec. subst rs'. rewrite Hp in Hsetrec.
  by destruct rs as [[e|]|p].
Qed.

End Local.

(** X11: the cycle of one source does not depend on the jobs of other
    sources: when the anchor record of [a] is neither the record nor the
    log of [b], then what [Execute] returns for [b], and the record it
    leaves for [b], are the same after a job of [a] as without it. *)
Theorem other_job_does_not_matter (enva envb : environment) (a b : scanner)
    (w : world) :
  iguFilePath a <> iguFilePath b ->
  iguFilePath a <> logFileLoc (svc b) ->
  (Execute envb b (job enva a w).2).1 = (Execute envb b w).1
  /\ files (Execute envb b (job enva a w).2).2 !! iguFilePath b
     = files (Execute envb b w).2 !! iguFilePath b.
Proof.
  intros Hrec Hlog.
  destruct (Execute_scan envb b (job enva a w).2) as [-> ->].
  destruct (Execute_scan envb b w) as [-> ->].
  assert (forall path, path <> iguFilePath a ->
            files (job enva a w).2 !! path = files w !! path) as Hframe.
  { intros path Hne. rewrite job_Execute.
    destruct (Execute_scan enva a w) as [_ ->]. by apply scan_frame. }
  destruct (scan_local envb b (job enva a w).2 w) as [-> ->]; [| |done].
  - apply Hframe. congruence.
  - apply Hframe. congruence.
Qed.

Lemma other_job_does_not_matter_witness :
  let w := {| files := {[ Apple.log := logText ["error 1"];
                          "/tmp/log/orange.log" := logText ["fine"; "error 2"] ]};
              trace := [] |} in
  (Execute calm Apple.orange (job calm Apple.apple w).2).1
  = (Execute calm Apple.orange w).1
  /\ files (Execute calm Apple.orange (job calm Apple.apple w).2).2
       !! iguFilePath Apple.orange
     = files (Execute calm Apple.orange w).2 !! iguFilePath Apple.orange.
Proof.
  intros w.
  apply (other_job_does_not_matter calm calm Apple.apple Apple.orange w).
  - discriminate.
  - discriminate.
Defined.

(** ** The pool over the ticks *)

Section PoolInvariants.
Import Pool.
Variable scanners : list scanner.
Variable maxWorkers : Z.

Lemma active_le_workers (p : pool) : (active p <= length (workers p))%nat.
Proof. unfold active. apply length_filter. Qed.

(** Counting the ticks loses no state. *)
Lemma reachable_reachedIn (p : pool) :
  reachable scanners maxWorkers p ->
  exists k, Ticks.reachedIn scanners maxWorkers k p.
Proof.
  intros (p0 & Hstart & Hrun). revert p Hrun.
  apply (rtc_ind_r (fun p => exists k, Ticks.reachedIn scanners maxWorkers k p)).
  - exists 0%nat. by apply Ticks.reached_start.
  - intros p1 p2 _ Hstep [k IH].
    inversion Hstep; subst;
      try (exists k; eapply Ticks.reached_step;
           [exact IH|exact Hstep|by right]).
    + exists (S k). by apply Ticks.reached_tick.
    + exists k. eapply Ticks.reached_step; [exact IH|exact Hstep|].
      destruct m; [by left|by right|by right].
    + exists k. eapply Ticks.reached_step; [exact IH|exact Hstep|].
      destruct m; [by left|by right|by right].
Qed.

(** The workers there are after [k] ticks, and the room in the queue. *)
Lemma reachedIn_count (k : nat) (p : pool) :
  Ticks.reachedIn scanners maxWorkers k p ->
  0 <= workerN scanners maxWorkers
  /\ Z.of_nat (length (queue p)) <= workerN scanners maxWorkers
  /\ match at_ p with
     | StartWorkers i =>
         (1 <= k)%nat /\ 1 <= i <= workerN scanners maxWorkers + 1
         /\ Z.of_nat (length (workers p))
            = (Z.of_nat k - 1) * workerN scanners maxWorkers + (i - 1)
     | _ => Z.of_nat (length (workers p))
            = Z.of_nat k * workerN scanners maxWorkers
     end.
Proof.
  induction 1 as [p0 Hstart|k ws q _ (HN & Hq & Hw)|k p p' _ (HN & Hq & Hw) Hstep Hno].
  - unfold start in Hstart.
    destruct (Z.ltb_spec (workerN scanners maxWorkers) 0); [done|].
    injection Hstart as <-. simpl. lia.
  - simpl in *. split; [done|]. split; [done|]. lia.
  - inversion Hstep; subst; simpl in *.
    + by destruct Hno.
    + rewrite length_app. simpl. lia.
    + assert (i = workerN scanners maxWorkers + 1) as -> by lia. lia.
    + rewrite length_app. simpl. lia.
    + lia.
    + rewrite !length_app in *. simpl in *. split; [done|]. split; [lia|].
      destruct m; lia.
    + rewrite !length_app in *. simpl in *. split; [done|]. split; [lia|].
      destruct m; lia.
Qed.

End PoolInvariants.

(** X12: with [k] ticks taken, no more than [k] times [workerN] sources
    are being scanned, and the queue holds no more than [workerN]
    scanners; so up to the second tick the pool keeps within
    [max_workers] and within the number of sources. *)
Theorem active_within_ticks (scanners : list scanner) (maxWorkers : Z)
    (k : nat) (p : Pool.pool) :
  Ticks.reachedIn scanners maxWorkers k p ->
  Z.of_nat (Pool.active p) <= Z.of_nat k * Pool.workerN scanners maxWorkers
  /\ Z.of_nat (length (Pool.queue p)) <= Pool.workerN scanners maxWorkers
  /\ ((k <= 1)%nat ->
      Z.of_nat (Pool.active p) <= Z.min (Z.of_nat (length scanners)) maxWorkers).
Proof.
  intros Hrun.
  destruct (reachedIn_count _ _ _ _ Hrun) as (HN & Hq & Hw).
  pose proof (active_le_workers p) as Hact.
  assert (Z.of_nat (length (Pool.workers p))
          <= Z.of_nat k * Pool.workerN scanners maxWorkers) as Hbound.
  { destruct (Pool.at_ p); nia. }
  split; [lia|]. split; [done|]. intros Hk.
  assert (Pool.workerN scanners maxWorkers
          = Z.min (Z.of_nat (length scanners)) maxWorkers) as <-.
  { unfold Pool.workerN.
    destruct (Z.ltb_spec maxWorkers (Z.of_nat (length scanners))); lia. }
  nia.
Qed.

Lemma active_within_ticks_witness :
  let p := {| Pool.workers := [Pool.Idle]; Pool.queue := [];
              Pool.at_ := Pool.StartWorkers 2 |} in
  Z.of_nat (Pool.active p) <= Z.of_nat 1 * Pool.workerN [Apple.apple; Apple.orange] 1
  /\ Z.of_nat (length (Pool.queue p)) <= Pool.workerN [Apple.apple; Apple.orange] 1
  /\ ((1 <= 1)%nat ->
      Z.of_nat (Pool.active p)
      <= Z.min (Z.of_nat (length [Apple.apple; Apple.orange])) 1).
Proof.
  intros p.
  apply (active_within_ticks [Apple.apple; Apple.orange] 1 1 p).
  eapply Ticks.reached_step.
  - apply Ticks.reached_tick. apply Ticks.reached_start. reflexivity.
  - apply (Pool.step_go [Apple.apple; Apple.orange] 1 [] [] 1).
    vm_compute. discriminate.
  - right. discriminate.
Defined.

(** X13: when [workerN] is 0, as with [max_workers] 0, no worker is ever
    started and no scanner ever queued, and [main] stays for ever at the
    first scanner it wants to push: nothing is scanned. *)
Theorem no_workers_nothing_scanned (scanners : list scanner) (maxWorkers : Z)
    (p : Pool.pool) :
  Pool.workerN scanners maxWorkers = 0 ->
  Pool.reachable scanners maxWorkers p ->
  Pool.workers p = [] /\ Pool.queue p = []
  /\ forall s rest p',
       Pool.at_ p = Pool.PushScanners (s :: rest) ->
       ~ Pool.step scanners maxWorkers p p'.
Proof.
  intros HN Hreach.
  destruct (reachable_reachedIn _ _ _ Hreach) as [k Hrun].
  destruct (reachedIn_count _ _ _ _ Hrun) as (_ & Hq & Hw).
  rewrite HN in Hq, Hw.
  assert (Pool.workers p = []) as Hws.
  { apply length_zero_iff_nil. destruct (Pool.at_ p); lia. }
  assert (Pool.queue p = []) as Hqu by (apply length_zero_iff_nil; lia).
  split; [done|]. split; [done|].
  intros s rest p' Hat Hstep. destruct p as [ws q m]. simpl in *. subst.
  inversion Hstep; subst; simpl in *; try lia;
    by match goal with H : _ ++ _ :: _ = [] |- _ => destruct (app_cons_not_nil _ _ _ (eq_sym H)) end.
Qed.

Lemma no_workers_nothing_scanned_witness :
  let p := {| Pool.workers := []; Pool.queue := [];
              Pool.at_ := Pool.PushScanners [Apple.apple] |} in
  Pool.workers p = [] /\ Pool.queue p = []
  /\ forall s rest p',
       Pool.at_ p = Pool.PushScanners (s :: rest) ->
       ~ Pool.step [Apple.apple] 0 p p'.
Proof.
  intros p. apply (no_workers_nothing_scanned [Apple.apple] 0 p).
  - reflexivity.
  - eexists. split; [reflexivity|].
    eapply rtc_l; [apply Pool.step_tick|].
    eapply rtc_l; [apply Pool.step_started; by vm_compute|].
    apply rtc_refl.
Defined.

(** X14: the workers are never fewer than before, and every tick brings
    [workerN] more: for every [k] a state with [k] times [workerN]
    workers is reached. *)
Theorem workers_grow_with_ticks (scanners : list scanner) (maxWorkers : Z)
    (k : nat) :
  1 <= Pool.workerN scanners maxWorkers ->
  (exists p, Pool.reachable scanners maxWorkers p
             /\ Z.of_nat (length (Pool.workers p))
                = Z.of_nat k * Pool.workerN scanners maxWorkers)
  /\ forall p p',
       rtc (Pool.step scanners maxWorkers) p p' ->
       (length (Pool.workers p) <= length (Pool.workers p'))%nat.
Proof.
  intros HN. split; [by apply workers_after_ticks|].
  intros p p' Hrun. induction Hrun as [|p1 p2 p3 Hstep _ IH]; [done|].
  etrans; [|exact IH].
  inversion Hstep; subst; simpl; rewrite ?length_app; simpl; lia.
Qed.

Lemma workers_grow_with_ticks_witness :
  (exists p, Pool.reachable [Apple.apple; Apple.orange] 1 p
             /\ Z.of_nat (length (Pool.workers p))
                = Z.of_nat 3 * Pool.workerN [Apple.apple; Apple.orange] 1)
  /\ forall p p',
       rtc (Pool.step [Apple.apple; Apple.orange] 1) p p' ->
       (length (Pool.workers p) <= length (Pool.workers p'))%nat.
Proof.
  apply (workers_grow_with_ticks [Apple.apple; Apple.orange] 1 3).
  vm_compute. discriminate.
Defined.


(** ** Carriage returns, long lines and failed scans *)

Section CarriageReturn.

Lemma prefix_snoc (c : ascii) (m s : string) :
  hasByte c m = false ->
  String.prefix m (s +:+ String c "") = true -> String.prefix m s = true.
Proof.
  revert s. induction m as [|a m IH]; intros s Hm.
  - intros _. by destruct s.
  - cbn [hasByte] in Hm. apply orb_false_elim in Hm as [Ha Hm].
    destruct s as [|b s].
    + rewrite app_empty_l. simpl.
      destruct (ascii_dec a c) as [->|_]; [|done].
      by rewrite Ascii.eqb_refl in Ha.
    + rewrite app_cons. simpl. destruct (ascii_dec a b); [by apply IH|done].
Qed.

Lemma Contains_snoc (c : ascii) (m s : string) :
  hasByte c m = false ->
  Contains (s +:+ String c "") m = true -> Contains s m = true.
Proof.
  intros Hm. induction s as [|b s IH].
  - rewrite app_empty_l. cbn [Contains]. rewrite !orb_false_r.
    intros [H|H]%orb_true_iff; [|done].
    by apply (prefix_snoc c m "" Hm).
  - rewrite app_cons. cbn [Contains]. intros [H|H]%orb_true_iff.
    + change (String b (s +:+ String c "")) with (String b s +:+ String c "") in H.
      by rewrite (prefix_snoc c m _ Hm H).
    + by rewrite (IH H), orb_true_r.
Qed.

Lemma dropCR_cases (l : string) :
  dropCR l = l \/ l = dropCR l +:+ String CR "".
Proof.
  induction l as [|c l IH]; [by left|].
  destruct l as [|c' l].
  - simpl. destruct (Ascii.eqb_spec c CR) as [->|_]; [by right|by left].
  - change (dropCR (String c (String c' l)))
      with (String c (dropCR (String c' l))).
    destruct IH as [->|IH]; [by left|right]. by rewrite app_cons, <- IH.
Qed.

(** The carriage return the scanner cuts off does not decide whether a
    line has the marker. *)
Lemma marked_dropCR_eq (l : string) : marked (dropCR l) = marked l.
Proof.
  destruct (marked l) eqn:E; [|by apply marked_dropCR].
  destruct (dropCR_cases l) as [->|Hl]; [done|].
  rewrite Hl in E. unfold marked in *.
  by apply (Contains_snoc CR defaultErrorKeyword).
Qed.

End CarriageReturn.

(** X15: the findings of a scan are the lines with the marker as they
    stand in the log, each without its trailing carriage return: a log
    with carriage returns before its newlines gives the same findings as
    one without. *)
Theorem findings_whatever_line_ends (env : environment) (s : scanner)
    (w : world) (dat : string) :
  readFileFails env = false ->
  files w !! logFileLoc (svc s) = Some dat ->
  0 <= anchor s <= Z.of_nat (length (Split dat LF)) ->
  Z.of_nat (length (Split dat LF)) <= maxInt ->
  Forall short (drop (Z.to_nat (anchor s)) (Split dat LF)) ->
  exists n issues w',
    scanFile env s w = (Val (n, issues, None), w')
    /\ map Body issues
       = map dropCR
           (filter (fun l => marked l = true)
              (consumed (drop (Z.to_nat (anchor s)) (Split dat LF)))).
Proof.
  intros Hread Hdat Ha Hlen Hshort.
  eexists _, _, _. split; [by apply scanFile_lines|].
  rewrite issuesOf_Body.
  induction (consumed (drop (Z.to_nat (anchor s)) (Split dat LF)))
    as [|l ls IH]; [done|].
  cbn [map]. rewrite !filter_cons, marked_dropCR_eq.
  case_decide; [|done]. cbn [map]. by rewrite IH.
Qed.

Lemma findings_whatever_line_ends_witness :
  let dat := "ok" +:+ String CR nl +:+ "an error" +:+ String CR nl in
  exists n issues w',
    scanFile calm Apple.apple (Apple.fresh dat) = (Val (n, issues, None), w')
    /\ map Body issues = map dropCR ["an error" +:+ String CR ""].
Proof.
  intros dat.
  apply (findings_whatever_line_ends calm Apple.apple (Apple.fresh dat) dat).
  - reflexivity.
  - reflexivity.
  - vm_compute. split; discriminate.
  - vm_compute. discriminate.
  - vm_compute. repeat constructor.
Defined.

Section LongLines.

Lemma tokensOf_long (ls : list string) :
  Exists (fun l => MaxScanTokenSize <= Z.of_nat (String.length l)) ls ->
  (tokensOf ls).2 = Some ErrTooLong.
Proof.
  induction ls as [|l ls IH]; intros H; [by apply Exists_nil in H|].
  simpl. destruct (Z.leb_spec MaxScanTokenSize (Z.of_nat (String.length l)));
    [done|].
  apply Exists_cons in H as [H|H]; [lia|].
  specialize (IH H). by destruct (tokensOf ls) as [ts e].
Qed.

Lemma doubled_length (k : nat) (c : ascii) :
  Z.of_nat (String.length (doubled k c)) = 2 ^ Z.of_nat k.
Proof.
  induction k as [|k IH]; [done|].
  change (doubled (S k) c) with (doubled k c +:+ doubled k c).
  rewrite length_app', Nat2Z.inj_add, IH, Nat2Z.inj_succ.
  rewrite Z.pow_succ_r by lia. lia.
Qed.

Lemma doubled_hasByte (k : nat) (c c' : ascii) :
  Ascii.eqb c' c = false -> hasByte c' (doubled k c) = false.
Proof.
  intros Hc. induction k as [|k IH].
  - unfold doubled. cbn [hasByte]. rewrite Ascii.eqb_sym in Hc.
    by rewrite ?Hc, ?(Ascii.eqb_sym c c'), ?Hc.
  - change (doubled (S k) c) with (doubled k c +:+ doubled k c).
    by rewrite hasByte_app, IH.
Qed.

End LongLines.



(** ** Two scans of a growing log *)

Section GrowingLog.

Lemma Split_logText_all (ls : list string) :
  Forall (fun l => hasByte LF l = false) ls ->
  Split (logText ls) LF = ls ++ [""].
Proof.
  destruct ls as [|l ls]; [done|]. by apply Split_logText.
Qed.

Lemma loadedAnchor_stored (fs : gmap string string) (s : scanner) (a : Z)
    (lines : list string) :
  fs !! iguFilePath s = Some "" \/ loadedAnchor fs s = Some a ->
  (fs !! iguFilePath s = Some "" -> a = 0) ->
  0 <= a -> a + Z.of_nat (length lines) <= maxInt ->
  loadedAnchor
    (if a <? a + Z.of_nat (length lines)
     then <[iguFilePath s := record (a + Z.of_nat (length lines))]> fs
     else fs) s
  = Some (a + Z.of_nat (length lines)).
Proof.
  intros Hfs Ha0 Ha Hmax. destruct (Z.ltb_spec a (a + Z.of_nat (length lines))).
  - apply loadedAnchor_record; [by rewrite lookup_insert_eq|].
    unfold minInt. lia.
  - replace (a + Z.of_nat (length lines)) with a by lia.
    destruct Hfs as [Hfs|Hfs]; [|done].
    rewrite (Ha0 Hfs). by apply loadedAnchor_empty.
Qed.

End GrowingLog.


